(** * A hash-chained ledger with Merkle commitment and proof of work

    Shallow embedding of [blockchain.py].

    The module rebinds [Block] and [Blockchain] several times as the
    tutorial grows.  The development follows the last definition of each
    class ([Block] with a Merkle root, [Blockchain] with a file name) and
    takes from the earlier definitions the methods the last ones do not
    redefine: [Block.mine_block], [Blockchain.get_latest_block] and
    [Blockchain.is_chain_valid].

    Conventions:
    - Python [int] is [Z]; [str] is [string]; a list is a [list].
    - [hashlib.sha256(s.encode()).hexdigest()] is a section variable
      [digest]; every theorem holds for an arbitrary digest function.  The
      FIPS 180-4 function is given at the end, to evaluate the definitions at
      concrete inputs.
    - [int(time.time())] is an explicit argument [now].
    - A Python exception is [Raise]; a [while] loop that has not finished
      within its iteration budget is [Unfinished].
    - A [Blockchain] read by [get_latest_block], [is_chain_valid] and
      [save_chain] is the list of the states of its blocks.  [add_block]
      assigns to the block object it is handed, which the chain may already
      hold: it runs on a [Heap] of block objects with a chain of object
      identities. *)

From Stdlib Require Import Ascii.
From stdpp Require Import base numbers list strings pretty.
From Equations Require Import Equations.

Local Open Scope string_scope.
Local Open Scope list_scope.
Local Open Scope Z_scope.

(** ** Outcomes of Python calls *)

Inductive exn : Type :=
| RecursionError   (* maximum recursion depth exceeded *)
| IndexError       (* list index out of range *)
| OSError.         (* raised by the persistence glue *)

Inductive outcome (A : Type) : Type :=
| Ret (a : A)
| Raise (e : exn)
| Unfinished.

Arguments Ret {A} a.
Arguments Raise {A} e.
Arguments Unfinished {A}.

Global Instance outcome_bind : MBind outcome := fun A B k m =>
  match m with
  | Ret a => k a
  | Raise e => Raise e
  | Unfinished => Unfinished
  end.

Global Instance outcome_ret : MRet outcome := fun A a => Ret a.

(** [l[i]] for a non-negative index. *)
Definition py_index {A : Type} (l : list A) (i : nat) : outcome A :=
  match l !! i with
  | Some x => Ret x
  | None => Raise IndexError
  end.

(** [l[-1]]. *)
Definition py_last {A : Type} (l : list A) : outcome A :=
  match last l with
  | Some x => Ret x
  | None => Raise IndexError
  end.

(** ** Python strings *)

(** [str(n)] for an [int]. *)
Definition str_int (n : Z) : string := pretty n.

(** [c * n]: the empty string when [n <= 0]. *)
Fixpoint string_repeat (c : string) (n : nat) : string :=
  match n with
  | O => ""
  | S n' => c +:+ string_repeat c n'
  end.

Definition py_mul (c : string) (n : Z) : string := string_repeat c (Z.to_nat n).

(** [s[:n]]: the first [n] characters, all of [s] when it is shorter; a
    negative [n] counts from the end. *)
Definition py_prefix (s : string) (n : Z) : string :=
  if n <? 0 then String.substring 0 (Z.to_nat (Z.of_nat (String.length s) + n)) s
  else String.substring 0 (Z.to_nat n) s.

(** [x or y] for an optional [int]: [None] and [0] are falsy. *)
Definition py_or (x : option Z) (y : Z) : Z :=
  match x with
  | Some v => if v =? 0 then y else v
  | None => y
  end.

(** ** Transactions *)

Record Transaction : Type := mkTransaction {
  sender : string;
  receiver : string;
  amount : Z
}.

(** [Transaction.__repr__], which [str(tx)] calls. *)
Definition Transaction_repr (tx : Transaction) : string :=
  "Transaction(" +:+ sender tx +:+ " -> " +:+ receiver tx +:+ ": "
    +:+ str_int (amount tx) +:+ ")".

(** ** Blocks *)

Record Block : Type := mkBlock {
  index : Z;
  previous_hash : string;
  transactions : list Transaction;
  timestamp : Z;
  nonce : Z;
  merkle_root : string;
  hash : string
}.

Definition set_previous_hash (p : string) (b : Block) : Block :=
  mkBlock (index b) p (transactions b) (timestamp b) (nonce b) (merkle_root b) (hash b).

Definition set_transactions (txs : list Transaction) (b : Block) : Block :=
  mkBlock (index b) (previous_hash b) txs (timestamp b) (nonce b) (merkle_root b) (hash b).

Definition set_nonce (n : Z) (b : Block) : Block :=
  mkBlock (index b) (previous_hash b) (transactions b) (timestamp b) n (merkle_root b) (hash b).

Definition set_hash (h : string) (b : Block) : Block :=
  mkBlock (index b) (previous_hash b) (transactions b) (timestamp b) (nonce b) (merkle_root b) h.

(** [meets_target d b]: the condition of the loop of [Block.mine_block],
    [self.hash[:difficulty] != target], is false. *)
Definition meets_target (d : Z) (b : Block) : Prop :=
  py_prefix (hash b) d = py_mul "0" d.

(** The f-string of [Block.calculate_hash]:
    [f"{index}{previous_hash}{merkle_root}{timestamp}{nonce}"]. *)
Definition block_string (i : Z) (p m : string) (t n : Z) : string :=
  str_int i +:+ p +:+ m +:+ str_int t +:+ str_int n.

(** ** The ledger, for an arbitrary digest function *)

Record MerkleTree : Type := mkMerkleTree {
  tree_transactions : list Transaction;
  root : string
}.

Record Blockchain : Type := mkBlockchain {
  chain : list Block;
  difficulty : Z;
  filename : string
}.

Definition set_chain (c : list Block) (bc : Blockchain) : Blockchain :=
  mkBlockchain c (difficulty bc) (filename bc).

(** ** Block objects

    A Python [Block] is an object, and [Blockchain.chain] is a list of
    objects: an assignment to an attribute of a block shows at every position
    of the chain that holds this block.  [add_block] makes such assignments
    to the object it is handed.  [Heap] keeps the state of every [Block]
    object under its identity, the position in [objects]; the chain is a
    list of identities.  [snapshot] reads the chain off the objects: it is
    the [Blockchain] of block states that [get_latest_block],
    [is_chain_valid] and [save_chain] see. *)
Record Heap : Type := mkHeap {
  objects : list Block;
  chain_ids : list nat;
  heap_difficulty : Z;
  heap_filename : string
}.

(** The state of the object [id]; identities of objects that exist are below
    [length objs]. *)
Definition deref (objs : list Block) (id : nat) : Block :=
  default (mkBlock 0 "" [] 0 0 "" "") (objs !! id).

Definition snapshot (h : Heap) : Blockchain :=
  mkBlockchain (deref (objects h) <$> chain_ids h) (heap_difficulty h) (heap_filename h).

(** [range(0, n, 2)] *)
Definition range_by_2 (n : nat) : list nat :=
  (fun k => 2 * k)%nat <$> seq 0 ((n + 1) / 2)%nat.

(** The line [is_chain_valid] prints for a violation at index [i]. *)
Definition invalid_block_message (i : nat) (reason : string) : string :=
  "Invalid block at index " +:+ str_int (Z.of_nat i) +:+ ": " +:+ reason +:+ ".".

Section Ledger.

(** [hashlib.sha256(data.encode()).hexdigest()] *)
Variable digest : string -> string.

(** The file is cut off inside [save_chain], and [load_chain] is not in it:
    both are parameters.  [save_chain] writes a file and leaves the object
    alone; [load_chain] may replace the chain. *)
Variable save_chain : Blockchain -> outcome unit.
Variable load_chain : Blockchain -> outcome Blockchain.

Definition hash_data (data : string) : string := digest data.

(** *** MerkleTree *)

(** [if len(leaves) % 2 == 1: leaves.append(leaves[-1])] *)
Definition duplicate_last (leaves : list string) : outcome (list string) :=
  if decide (length leaves `mod` 2 = 1)%nat
  then x ← py_last leaves; mret (leaves ++ [x])
  else mret leaves.

(** The [for i in range(0, len(leaves), 2)] loop, [parent_layer] being the
    accumulator. *)
Fixpoint pairwise_hashing (leaves : list string) (idx : list nat)
    (parent_layer : list string) : outcome (list string) :=
  match idx with
  | [] => mret parent_layer
  | i :: idx' =>
      a ← py_index leaves i;
      b ← py_index leaves (i + 1);
      pairwise_hashing leaves idx' (parent_layer ++ [hash_data (a +:+ b)])
  end.

(** One pass of the body of [build_tree] below its base case. *)
Definition parent_layer_of (leaves : list string) : outcome (list string) :=
  leaves' ← duplicate_last leaves;
  pairwise_hashing leaves' (range_by_2 (length leaves')) [].

(** [MerkleTree.build_tree]; [limit] is the number of nested calls the
    interpreter still allows. *)
Fixpoint build_tree (limit : nat) (leaves : list string) : outcome string :=
  match limit with
  | O => Raise RecursionError
  | S limit' =>
      if decide (length leaves = 1%nat) then py_index leaves 0
      else
        parent_layer ← parent_layer_of leaves;
        build_tree limit' parent_layer
  end.

(** [MerkleTree.__init__] *)
Definition MerkleTree_init (limit : nat) (txs : list Transaction) : outcome MerkleTree :=
  r ← build_tree limit ((fun tx => hash_data (Transaction_repr tx)) <$> txs);
  mret (mkMerkleTree txs r).

(** *** Block *)

Definition calculate_hash (b : Block) : string :=
  digest (block_string (index b) (previous_hash b) (merkle_root b)
                       (timestamp b) (nonce b)).

(** [Block.__init__]; [now] is the reading of the clock. *)
Definition Block_init (limit : nat) (now : Z) (i : Z) (p : string)
    (txs : list Transaction) (t : option Z) (n : Z) : outcome Block :=
  tree ← MerkleTree_init limit txs;
  let self := mkBlock i p txs (py_or t now) n (root tree) "" in
  mret (set_hash (calculate_hash self) self).

(** The body of the loop of [mine_block]. *)
Definition mine_step (b : Block) : Block :=
  let b' := set_nonce (nonce b + 1) b in
  set_hash (calculate_hash b') b'.

(** [Block.mine_block]; [fuel] bounds the iterations that are observed. *)
Fixpoint mine_block (fuel : nat) (d : Z) (b : Block) : outcome Block :=
  if decide (py_prefix (hash b) d ≠ py_mul "0" d) then
    match fuel with
    | O => Unfinished
    | S fuel' => mine_block fuel' d (mine_step b)
    end
  else mret b.

(** *** Blockchain *)

Definition create_genesis_block (limit : nat) (now : Z) : outcome Block :=
  Block_init limit now 0 "0" [] None 0.

(** [Blockchain.__init__] *)
Definition Blockchain_init (limit : nat) (now : Z) (d : Z) (file : string)
    : outcome Blockchain :=
  g ← create_genesis_block limit now;
  load_chain (mkBlockchain [g] d file).

Definition get_latest_block (bc : Blockchain) : outcome Block :=
  py_last (chain bc).

(** [Blockchain.add_block]; [new_block] is the identity of the object
    handed in.  The assignment to [previous_hash] and the assignments of
    [mine_block] to [nonce] and [hash] are made to that object, so they show
    wherever the chain already holds it; [append] adds the object itself. *)
Definition add_block (fuel : nat) (h : Heap) (new_block : nat) : outcome Heap :=
  tip ← get_latest_block (snapshot h);
  let objs := <[new_block := set_previous_hash (hash tip) (deref (objects h) new_block)]>
                (objects h) in
  mined ← mine_block fuel (heap_difficulty h) (deref objs new_block);
  let objs := <[new_block := mined]> objs in
  let h := mkHeap objs (chain_ids h ++ [new_block]) (heap_difficulty h) (heap_filename h) in
  _ ← save_chain (snapshot h);
  mret h.

(** The loop of [is_chain_valid] over the indices [idx]; the result is the
    returned boolean and the lines printed. *)
Fixpoint validate_from (c : list Block) (idx : list nat)
    : outcome (bool * list string) :=
  match idx with
  | [] => mret (true, [])
  | i :: idx' =>
      current_block ← py_index c i;
      previous_block ← py_index c (i - 1);
      if decide (hash current_block ≠ calculate_hash current_block)
      then mret (false, [invalid_block_message i "hash mismatch"])
      else if decide (previous_hash current_block ≠ hash previous_block)
      then mret (false, [invalid_block_message i "previous hash mismatch"])
      else validate_from c idx'
  end.

(** [Blockchain.is_chain_valid] *)
Definition is_chain_valid (bc : Blockchain) : outcome (bool * list string) :=
  validate_from (chain bc) (seq 1 (length (chain bc) - 1)).

(** The two checks of the loop body pass at index [i]. *)
Definition linked_at (c : list Block) (i : nat) : Prop :=
  exists current_block previous_block : Block,
    c !! i = Some current_block
    /\ c !! (i - 1)%nat = Some previous_block
    /\ hash current_block = calculate_hash current_block
    /\ previous_hash current_block = hash previous_block.

End Ledger.


(** ** SHA-256 (FIPS 180-4), the digest [hashlib] computes

    Words are integers below [2 ^ 32]; sums wrap around. *)

Module SHA256.

Definition wrap32 (x : Z) : Z := x `mod` 2 ^ 32.
Definition add32 (x y : Z) : Z := wrap32 (x + y).
Definition rotr (n x : Z) : Z :=
  Z.lor (Z.shiftr x n) (wrap32 (Z.shiftl x (32 - n))).
Definition xor3 (x y z : Z) : Z := Z.lxor (Z.lxor x y) z.

Definition choose (x y z : Z) : Z :=
  Z.lxor (Z.land x y) (Z.land (Z.lxor x (2 ^ 32 - 1)) z).
Definition majority (x y z : Z) : Z :=
  xor3 (Z.land x y) (Z.land x z) (Z.land y z).
Definition big_sigma0 (x : Z) : Z := xor3 (rotr 2 x) (rotr 13 x) (rotr 22 x).
Definition big_sigma1 (x : Z) : Z := xor3 (rotr 6 x) (rotr 11 x) (rotr 25 x).
Definition small_sigma0 (x : Z) : Z := xor3 (rotr 7 x) (rotr 18 x) (Z.shiftr x 3).
Definition small_sigma1 (x : Z) : Z := xor3 (rotr 17 x) (rotr 19 x) (Z.shiftr x 10).

(** The first 64 primes; the constants are the leading 32 bits of the
    fractional parts of their square and cube roots. *)
Definition primes : list Z :=
  [2; 3; 5; 7; 11; 13; 17; 19; 23; 29; 31; 37; 41; 43; 47; 53;
   59; 61; 67; 71; 73; 79; 83; 89; 97; 101; 103; 107; 109; 113; 127; 131;
   137; 139; 149; 151; 157; 163; 167; 173; 179; 181; 191; 193; 197; 199;
   211; 223; 227; 229; 233; 239; 241; 251; 257; 263; 269; 271; 277; 281;
   283; 293; 307; 311].

(** Floor of the cube root, one bit at a time from bit [k - 1] down. *)
Fixpoint cube_root_bits (k : nat) (n r : Z) : Z :=
  match k with
  | O => r
  | S k' =>
      let r' := r + 2 ^ Z.of_nat k' in
      cube_root_bits k' n (if r' * r' * r' <=? n then r' else r)
  end.

Definition initial_state : list Z :=
  Eval vm_compute in (fun p => wrap32 (Z.sqrt (p * 2 ^ 64))) <$> take 8 primes.
Definition round_constants : list Z :=
  Eval vm_compute in (fun p => wrap32 (cube_root_bits 36 (p * 2 ^ 96) 0)) <$> primes.

(** The characters of a [string] are the bytes of the encoded text. *)
Definition bytes_of_string (s : string) : list Z :=
  (fun c => Z.of_N (Ascii.N_of_ascii c)) <$> String.list_ascii_of_string s.

(** Big-endian bytes of [x], [k] of them. *)
Fixpoint be_bytes (k : nat) (x : Z) : list Z :=
  match k with
  | O => []
  | S k' => (Z.shiftr x (8 * Z.of_nat k') `mod` 256) :: be_bytes k' x
  end.

Definition pad (msg : list Z) : list Z :=
  let len := Z.of_nat (length msg) in
  (msg ++ [128] ++ replicate (Z.to_nat ((55 - len) `mod` 64)) 0
       ++ be_bytes 8 (8 * len)).

Fixpoint words_of_bytes (fuel : nat) (bs : list Z) : list Z :=
  match fuel, bs with
  | S fuel', b0 :: b1 :: b2 :: b3 :: rest =>
      (((b0 * 256 + b1) * 256 + b2) * 256 + b3) :: words_of_bytes fuel' rest
  | _, _ => []
  end.

Fixpoint chunks (fuel : nat) (ws : list Z) : list (list Z) :=
  match fuel, ws with
  | _, [] => []
  | O, _ => []
  | S fuel', _ => take 16 ws :: chunks fuel' (drop 16 ws)
  end.

Definition word_at (w : list Z) (i : nat) : Z := default 0 (w !! i).

(** Extends a schedule by [k] words. *)
Fixpoint schedule (k : nat) (w : list Z) : list Z :=
  match k with
  | O => w
  | S k' =>
      let t := length w in
      let x := add32 (add32 (small_sigma1 (word_at w (t - 2))) (word_at w (t - 7)))
                     (add32 (small_sigma0 (word_at w (t - 15))) (word_at w (t - 16))) in
      schedule k' (w ++ [x])
  end.

Definition round (st : list Z) (kw : Z * Z) : list Z :=
  match st with
  | [a; b; c; d; e; f; g; h] =>
      let t1 := add32 (add32 (add32 h (big_sigma1 e)) (add32 (choose e f g) (fst kw))) (snd kw) in
      let t2 := add32 (big_sigma0 a) (majority a b c) in
      [add32 t1 t2; a; b; c; add32 d t1; e; f; g]
  | _ => st
  end.

Definition compress (st : list Z) (chunk : list Z) : list Z :=
  let w := schedule 48 chunk in
  zip_with add32 st (foldl round st (zip round_constants w)).

Definition hex_digit (x : Z) : ascii :=
  default Ascii.zero (String.get (Z.to_nat x) "0123456789abcdef").

Fixpoint hex_of_word (k : nat) (x : Z) : string :=
  match k with
  | O => ""
  | S k' => String (hex_digit (Z.shiftr x (4 * Z.of_nat k') `mod` 16)) (hex_of_word k' x)
  end.

Definition hexdigest (s : string) : string :=
  let bs := pad (bytes_of_string s) in
  let ws := words_of_bytes (length bs) bs in
  let st := foldl compress initial_state (chunks (length ws) ws) in
  foldr (fun w acc => hex_of_word 8 w +:+ acc) "" st.

End SHA256.

(** ** A ledger to evaluate

    [sha256] instantiates the digest; the persistence glue does nothing. *)

Module Scenario.

Definition sha256 : string -> string := SHA256.hexdigest.
Definition save_nothing (bc : Blockchain) : outcome unit := Ret tt.
Definition load_nothing (bc : Blockchain) : outcome Blockchain := Ret bc.

Definition alice_bob : Transaction := mkTransaction "Alice" "Bob" 10.
Definition alice_mallory : Transaction := mkTransaction "Alice" "Mallory" 100.

(** What a call returned, or [fallback] when it did not return. *)
Definition returned {A : Type} (fallback : A) (r : outcome A) : A :=
  match r with
  | Ret a => a
  | _ => fallback
  end.

Definition no_block : Block := mkBlock 0 "" [] 0 0 "" "".

(** [Block(0, "0", [alice_bob], timestamp=1700000000)]: a first block whose
    Merkle tree can be built. *)
Definition first_block : Block :=
  Eval vm_compute in
    returned no_block (Block_init sha256 8 0 0 "0" [alice_bob] (Some 1700000000) 0).

Definition ledger0 : Blockchain := mkBlockchain [first_block] 1 "blockchain.json".

(** [Block(1, first_block.hash, [alice_bob], timestamp=1700000060)] *)
Definition second_block : Block :=
  Eval vm_compute in
    returned no_block
      (Block_init sha256 8 0 1 (hash first_block) [alice_bob] (Some 1700000060) 0).

(** The objects behind [ledger0]: [first_block] is object 0 and is the chain;
    [second_block] is object 1, not yet in the chain. *)
Definition heap0 : Heap :=
  mkHeap [first_block; second_block] [0%nat] 1 "blockchain.json".

(** [ledger0.add_block(second_block)] *)
Definition heap1 : Heap :=
  Eval vm_compute in returned heap0 (add_block sha256 save_nothing 1000 heap0 1).

Definition ledger1 : Blockchain := Eval vm_compute in snapshot heap1.

(** [second_block.mine_block(1)] *)
Definition mined_block : Block :=
  Eval vm_compute in returned no_block (mine_block sha256 1000 1 second_block).

(** [ledger1.chain[1].transactions = [alice_mallory]] *)
Definition ledger1_new_transactions : Blockchain :=
  set_chain (alter (set_transactions [alice_mallory]) 1%nat (chain ledger1)) ledger1.

(** [ledger1.chain[1].previous_hash = "0"] *)
Definition ledger1_new_previous_hash : Blockchain :=
  set_chain (alter (set_previous_hash "0") 1%nat (chain ledger1)) ledger1.

(** [Block(7, "0", [alice_bob], timestamp=1700000060)]: neither the index
    nor the previous hash follows the tip of [ledger0]. *)
Definition stray_block : Block :=
  Eval vm_compute in
    returned no_block (Block_init sha256 8 0 7 "0" [alice_bob] (Some 1700000060) 0).

Definition heap_stray0 : Heap :=
  mkHeap [first_block; stray_block] [0%nat] 1 "blockchain.json".

(** [ledger0.add_block(stray_block)] *)
Definition heap_stray : Heap :=
  Eval vm_compute in
    returned heap_stray0 (add_block sha256 save_nothing 1000 heap_stray0 1).

Definition ledger_stray : Blockchain := Eval vm_compute in snapshot heap_stray.

Definition stray_tip : Block :=
  Eval vm_compute in returned no_block (get_latest_block ledger_stray).

(** The same admission at difficulty 0, where the loop of [mine_block] does
    not run. *)
Definition ledger_easy : Blockchain := mkBlockchain [first_block] 0 "blockchain.json".

Definition heap_easy : Heap :=
  mkHeap [first_block; stray_block] [0%nat] 0 "blockchain.json".

Definition heap_easy_stray : Heap :=
  Eval vm_compute in
    returned heap_easy (add_block sha256 save_nothing 1000 heap_easy 1).

Definition ledger_easy_stray : Blockchain := Eval vm_compute in snapshot heap_easy_stray.

(** [Block(1, "0", [alice_bob], timestamp=1700000070)]: the hash stored at
    construction happens to start with a zero. *)
Definition lucky_block : Block :=
  Eval vm_compute in
    returned no_block (Block_init sha256 8 0 1 "0" [alice_bob] (Some 1700000070) 0).

Definition heap_lucky0 : Heap :=
  mkHeap [first_block; lucky_block] [0%nat] 1 "blockchain.json".

(** [ledger0.add_block(lucky_block)] *)
Definition heap_lucky : Heap :=
  Eval vm_compute in
    returned heap_lucky0 (add_block sha256 save_nothing 1000 heap_lucky0 1).

Definition lucky_tip : Block :=
  Eval vm_compute in returned no_block (get_latest_block (snapshot heap_lucky)).

(** [ledger1.add_block(ledger1.chain[1])]: the block handed in is already in
    the chain. *)
Definition heap_again : Heap :=
  Eval vm_compute in returned heap1 (add_block sha256 save_nothing 1000 heap1 1).

(** [ledger0.add_block(ledger0.chain[0])] *)
Definition heap_self : Heap :=
  Eval vm_compute in returned heap0 (add_block sha256 save_nothing 1000 heap0 0).

End Scenario.

(** ** The Merkle reduction in the words of the design document

    While the layer has more than one element: if its length is odd,
    duplicate the last element; then pair up adjacent elements left to right,
    replacing each pair [(a, b)] with [digest (a ++ b)]; repeat until one
    element remains.  For the empty sequence the document recommends the
    digest of the empty string. *)

Section MerkleSpec.

Variable digest : string -> string.

Fixpoint spec_pair_up (layer : list string) : list string :=
  match layer with
  | a :: b :: rest => digest (a +:+ b) :: spec_pair_up rest
  | _ => []
  end.

Definition spec_duplicate_last_if_odd (layer : list string) : list string :=
  if Nat.odd (length layer)
  then match last layer with
       | Some x => (layer ++ [x])
       | None => layer
       end
  else layer.

Definition spec_next_layer (layer : list string) : list string :=
  spec_pair_up (spec_duplicate_last_if_odd layer).

Equations? spec_merkle_root (layer : list string) : string
  by wf (length layer) lt :=
  spec_merkle_root [] := digest "";
  spec_merkle_root [r] := r;
  spec_merkle_root (a :: b :: rest) :=
    spec_merkle_root (spec_next_layer (a :: b :: rest)).
Proof.
  assert (Hpair : forall n l, (length l <= n)%nat ->
                    (2 * length (spec_pair_up l) <= length l)%nat).
  { induction n as [|n IH]; intros [|x [|y l]] Hl;
      cbn [spec_pair_up length] in *; try lia.
    specialize (IH l). lia. }
  assert (Hdup : (length (spec_duplicate_last_if_odd (a :: b :: rest))
                  <= S (length (a :: b :: rest)))%nat).
  { unfold spec_duplicate_last_if_odd.
    destruct (Nat.odd _); [destruct (last _)|]; rewrite ?length_app; simpl; lia. }
  unfold spec_next_layer.
  specialize (Hpair _ _ (le_n (length (spec_duplicate_last_if_odd (a :: b :: rest))))).
  cbn [length] in *. lia.
Qed.

End MerkleSpec.

(** ** The second definition of [Block]

    "Modified Block class to include transactions": the block hashes the
    joined [str] of its transactions; it has no Merkle root. *)

Module Transactional.

Record Block : Type := mkBlock {
  index : Z;
  previous_hash : string;
  transactions : list Transaction;
  timestamp : Z;
  nonce : Z;
  hash : string
}.

(** ["".join([str(tx) for tx in transactions])] *)
Definition transactions_str (txs : list Transaction) : string :=
  foldr (fun tx acc => Transaction_repr tx +:+ acc) "" txs.

(** [f"{index}{previous_hash}{transactions_str}{timestamp}{nonce}"] *)
Definition block_string (i : Z) (p : string) (txs : list Transaction)
    (t n : Z) : string :=
  str_int i +:+ p +:+ transactions_str txs +:+ str_int t +:+ str_int n.

Definition calculate_hash (digest : string -> string) (b : Block) : string :=
  digest (block_string (index b) (previous_hash b) (transactions b)
            (timestamp b) (nonce b)).

(** [Block.__init__]; [now] is the reading of the clock. *)
Definition Block_init (digest : string -> string) (now : Z) (i : Z) (p : string)
    (txs : list Transaction) (t : option Z) (n : Z) : Block :=
  let self := mkBlock i p txs (py_or t now) n "" in
  mkBlock i p txs (py_or t now) n (calculate_hash digest self).

End Transactional.

(** * Properties *)

(** ** Evaluation of the string helpers *)

Example str_int_examples :
  str_int 0 = "0" /\ str_int 1700000000 = "1700000000" /\ str_int (-25) = "-25".
Proof. repeat split; vm_compute; reflexivity. Qed.

Example py_prefix_examples :
  py_prefix "00ab" 2 = "00" /\ py_prefix "00ab" 9 = "00ab" /\
  py_prefix "00ab" (-1) = "00a" /\ py_mul "0" 2 = "00" /\ py_mul "0" (-3) = "".
Proof. repeat split. Qed.

Example Transaction_repr_example :
  Transaction_repr Scenario.alice_bob = "Transaction(Alice -> Bob: 10)".
Proof. vm_compute. reflexivity. Qed.

(** The FIPS 180-4 test vectors for the empty message and for "abc". *)
Example sha256_test_vectors :
  SHA256.hexdigest "" =
    "e3b0c44298fc1c149afbf4c8996fb92427ae41e4649b934ca495991b7852b855" /\
  SHA256.hexdigest "abc" =
    "ba7816bf8f01cfea414140de5dae2223b00361a396177a9cb410ff61f20015ad".
Proof. split; vm_compute; reflexivity. Qed.

(** ** The Merkle tree *)

Section MerkleFacts.

Variable digest : string -> string.

Lemma spec_pair_up_length (layer : list string) :
  length (spec_pair_up digest layer) = (length layer / 2)%nat.
Proof.
  assert (H : forall n l, (length l <= n)%nat ->
              length (spec_pair_up digest l) = (length l / 2)%nat).
  { induction n as [|n IH]; intros [|a [|b l]] Hl;
      cbn [spec_pair_up length] in *; try lia; try done.
    rewrite IH by lia.
    change (S (S (length l))) with (1 * 2 + length l)%nat.
    rewrite Nat.div_add_l by lia. lia. }
  eauto.
Qed.

Lemma spec_duplicate_last_if_odd_length (layer : list string) :
  (length (spec_duplicate_last_if_odd layer) <= S (length layer))%nat.
Proof.
  unfold spec_duplicate_last_if_odd.
  destruct (Nat.odd _); [destruct (last layer)|]; rewrite ?length_app; simpl; lia.
Qed.

Lemma spec_next_layer_shrinks (layer : list string) :
  (1 < length layer)%nat -> (length (spec_next_layer digest layer) < length layer)%nat.
Proof.
  intros Hlen. unfold spec_next_layer. rewrite spec_pair_up_length.
  pose proof (spec_duplicate_last_if_odd_length layer) as Hd.
  apply Nat.Div0.div_lt_upper_bound. lia.
Qed.

Lemma range_by_2_even (m : nat) :
  range_by_2 (2 * m) = (fun k => 2 * k)%nat <$> seq 0 m.
Proof.
  unfold range_by_2. f_equal. f_equal.
  replace (2 * m + 1)%nat with (1 + m * 2)%nat by lia.
  rewrite Nat.div_add by lia. reflexivity.
Qed.

(** The index loop started at index [2 * j] pairs up the rest of the layer. *)
Lemma pairwise_hashing_from (m : nat) :
  forall (pre rest acc : list string) (j : nat),
    length pre = (2 * j)%nat ->
    length rest = (2 * m)%nat ->
    pairwise_hashing digest (pre ++ rest) ((fun k => 2 * k)%nat <$> seq j m) acc
    = Ret (acc ++ spec_pair_up digest rest).
Proof.
  induction m as [|m IH]; intros pre rest acc j Hpre Hrest.
  - destruct rest; [|discriminate]. simpl. by rewrite app_nil_r.
  - destruct rest as [|a [|b rest]]; simpl in Hrest; try lia.
    assert (Ha : (pre ++ a :: b :: rest) !! (2 * j)%nat = Some a).
    { rewrite lookup_app_r by lia.
      replace (2 * j - length pre)%nat with 0%nat by lia. reflexivity. }
    assert (Hb : (pre ++ a :: b :: rest) !! (2 * j + 1)%nat = Some b).
    { rewrite lookup_app_r by lia.
      replace (2 * j + 1 - length pre)%nat with 1%nat by lia. reflexivity. }
    cbn [seq fmap list_fmap pairwise_hashing].
    unfold py_index. rewrite Ha. cbn [mbind outcome_bind].
    rewrite Hb. cbn [mbind outcome_bind].
    change (pre ++ a :: b :: rest) with (pre ++ [a; b] ++ rest).
    rewrite (assoc_L (++)).
    rewrite (IH (pre ++ [a; b]) rest _ (S j)).
    + unfold hash_data. cbn [spec_pair_up]. by rewrite <- (assoc_L (++)).
    + rewrite length_app. simpl. lia.
    + lia.
Qed.

Lemma pairwise_hashing_even (leaves : list string) (m : nat) :
  length leaves = (2 * m)%nat ->
  pairwise_hashing digest leaves (range_by_2 (length leaves)) []
  = Ret (spec_pair_up digest leaves).
Proof.
  intros Hlen. rewrite Hlen, range_by_2_even.
  apply (pairwise_hashing_from m [] leaves [] 0); [reflexivity | assumption].
Qed.

Lemma odd_mod_2 (n : nat) : Nat.odd n = true <-> (n `mod` 2 = 1)%nat.
Proof.
  rewrite Nat.odd_spec. split.
  - intros [k ->]. rewrite Nat.add_comm, Nat.mul_comm, Nat.Div0.mod_add. reflexivity.
  - intros H. exists (n / 2)%nat. pose proof (Nat.div_mod_eq n 2). lia.
Qed.

Lemma duplicate_last_spec (leaves : list string) :
  duplicate_last leaves = Ret (spec_duplicate_last_if_odd leaves).
Proof.
  unfold duplicate_last, spec_duplicate_last_if_odd, py_last.
  destruct (decide _) as [Hodd|Heven].
  - apply odd_mod_2 in Hodd as Hodd'. rewrite Hodd'.
    destruct (last leaves) eqn:Hlast; [reflexivity|].
    apply last_None in Hlast. subst. discriminate.
  - destruct (Nat.odd (length leaves)) eqn:Hodd; [|reflexivity].
    apply odd_mod_2 in Hodd. contradiction.
Qed.

Lemma spec_duplicate_last_if_odd_even (leaves : list string) :
  exists m, length (spec_duplicate_last_if_odd leaves) = (2 * m)%nat.
Proof.
  unfold spec_duplicate_last_if_odd.
  destruct (Nat.odd (length leaves)) eqn:Hodd.
  - apply Nat.odd_spec in Hodd as [k Hk].
    destruct (last leaves) eqn:Hlast.
    + exists (S k). rewrite length_app. simpl. lia.
    + apply last_None in Hlast. subst. simpl in Hk. lia.
  - assert (Heven : Nat.even (length leaves) = true).
    { rewrite <- Nat.negb_odd, Hodd. reflexivity. }
    apply Nat.even_spec in Heven as [k Hk]. exists k. lia.
Qed.

(** One pass of the source is one pass of the documented reduction; it
    raises nothing, whatever the layer. *)
Lemma parent_layer_of_spec (leaves : list string) :
  parent_layer_of digest leaves = Ret (spec_next_layer digest leaves).
Proof.
  unfold parent_layer_of. rewrite duplicate_last_spec.
  cbn [mbind outcome_bind].
  destruct (spec_duplicate_last_if_odd_even leaves) as [m Hm].
  apply (pairwise_hashing_even _ m Hm).
Qed.

Lemma spec_next_layer_nonempty (leaves : list string) :
  (1 < length leaves)%nat -> spec_next_layer digest leaves <> [].
Proof.
  destruct leaves as [|a [|b rest]]; simpl; try lia. intros _.
  unfold spec_next_layer, spec_duplicate_last_if_odd.
  destruct (Nat.odd _); [destruct (last _)|]; discriminate.
Qed.

(** On the empty list every recursion depth is used up. *)
Lemma build_tree_nil (limit : nat) :
  build_tree digest limit [] = Raise RecursionError.
Proof.
  induction limit as [|limit IH]; [reflexivity|].
  cbn [build_tree]. rewrite parent_layer_of_spec. exact IH.
Qed.

Lemma build_tree_spec (limit : nat) :
  forall leaves : list string,
    leaves <> [] -> (length leaves <= limit)%nat ->
    build_tree digest limit leaves = Ret (spec_merkle_root digest leaves).
Proof.
  induction limit as [|limit IH]; intros leaves Hne Hlen.
  - destruct leaves; [done | simpl in Hlen; lia].
  - destruct leaves as [|a [|b rest]]; [done | reflexivity |].
    cbn [build_tree]. rewrite decide_False by (simpl; lia).
    rewrite parent_layer_of_spec. cbn [mbind outcome_bind].
    rewrite spec_merkle_root_equation_3.
    apply IH.
    + apply spec_next_layer_nonempty. simpl. lia.
    + pose proof (spec_next_layer_shrinks (a :: b :: rest)) as Hs.
      simpl in Hs, Hlen. simpl. lia.
Qed.

End MerkleFacts.

Section MerkleClaims.

Variable digest : string -> string.

(** C5. For every non-empty sequence of leaf digests, [build_tree] computes
    the documented reduction: while the layer has more than one element, an
    odd layer gets its last element duplicated, adjacent elements are paired
    left to right and each pair [(a, b)] becomes [digest (a ++ b)]; the
    element that remains is the root, and a single-element layer is its own
    root.  [spec_merkle_root] is that reduction, written from the document;
    the second and third parts spell out its two cases. *)
Theorem build_tree_is_documented_reduction (leaves : list string) (limit : nat) :
  leaves <> [] ->
  (length leaves <= limit)%nat ->
  build_tree digest limit leaves = Ret (spec_merkle_root digest leaves)
  /\ (forall x, leaves = [x] -> spec_merkle_root digest leaves = x)
  /\ ((1 < length leaves)%nat ->
      spec_merkle_root digest leaves
      = spec_merkle_root digest
          (spec_pair_up digest (spec_duplicate_last_if_odd leaves))).
Proof.
  intros Hne Hlen. split; [by apply build_tree_spec|]. split.
  - intros x ->. by rewrite spec_merkle_root_equation_2.
  - destruct leaves as [|a [|b rest]]; simpl; try lia. intros _.
    by rewrite spec_merkle_root_equation_3.
Qed.

(** C10. For every non-empty list of leaf digests [build_tree] returns a
    single digest, the same at every recursion limit that is at least the
    number of leaves; a pass over a layer of more than one element yields a
    strictly shorter, non-empty layer; on the empty list it never returns:
    every recursion limit is exhausted. *)
Theorem build_tree_terminates (leaves : list string) :
  leaves <> [] ->
  (exists r : string, forall limit : nat,
      (length leaves <= limit)%nat -> build_tree digest limit leaves = Ret r)
  /\ ((1 < length leaves)%nat ->
      exists parent : list string,
        parent_layer_of digest leaves = Ret parent
        /\ (0 < length parent < length leaves)%nat)
  /\ (forall limit : nat, build_tree digest limit [] = Raise RecursionError).
Proof.
  intros Hne. split; [|split].
  - exists (spec_merkle_root digest leaves). intros limit Hlen.
    by apply build_tree_spec.
  - intros Hlen. exists (spec_next_layer digest leaves).
    split; [apply parent_layer_of_spec|]. split.
    + pose proof (spec_next_layer_nonempty digest leaves Hlen) as Hp.
      destruct (spec_next_layer digest leaves); [done | simpl; lia].
    + by apply spec_next_layer_shrinks.
  - apply build_tree_nil.
Qed.

End MerkleClaims.

Lemma build_tree_is_documented_reduction_witness :
  ["a"; "b"; "c"] <> [] /\ (length ["a"; "b"; "c"] <= 3)%nat /\
  build_tree Scenario.sha256 3 ["a"; "b"; "c"]
  = Ret (spec_merkle_root Scenario.sha256 ["a"; "b"; "c"]).
Proof.
  split; [discriminate|]. split; [simpl; lia|].
  apply (build_tree_is_documented_reduction Scenario.sha256 ["a"; "b"; "c"] 3);
    [discriminate | simpl; lia].
Defined.

Lemma build_tree_terminates_witness :
  ["a"; "b"; "c"] <> [] /\
  exists r : string, forall limit : nat,
    (length ["a"; "b"; "c"] <= limit)%nat ->
    build_tree Scenario.sha256 limit ["a"; "b"; "c"] = Ret r.
Proof.
  split; [discriminate|].
  apply (build_tree_terminates Scenario.sha256 ["a"; "b"; "c"]). discriminate.
Defined.

(** The root of three leaves, as the reduction computes it. *)
Example build_tree_three_leaves :
  build_tree Scenario.sha256 3 ["a"; "b"; "c"]
  = Ret (Scenario.sha256
           (Scenario.sha256 ("a" +:+ "b") +:+ Scenario.sha256 ("c" +:+ "c"))).
Proof. vm_compute. reflexivity. Qed.

(** ** Blocks and mining *)

Lemma append_inj_same_length (s1 s2 t1 t2 : string) :
  String.length s1 = String.length s2 ->
  s1 +:+ t1 = s2 +:+ t2 -> s1 = s2 /\ t1 = t2.
Proof.
  revert s2. induction s1 as [|c s1 IH]; intros [|c' s2] Hlen Heq;
    simpl in *; try discriminate.
  - done.
  - injection Hlen as Hlen. injection Heq as -> Heq.
    destruct (IH s2 Hlen Heq) as [-> ->]. done.
Qed.

Lemma substring_zeros_get (n : nat) :
  forall s : string,
    String.substring 0 n s = string_repeat "0" n ->
    forall i : nat, (i < n)%nat -> String.get i s = Some "0"%char.
Proof.
  induction n as [|n IH]; intros s Hs i Hi; [lia|].
  destruct s as [|c s]; simpl in Hs; [discriminate|].
  injection Hs as -> Hs.
  destruct i as [|i]; [reflexivity|]. simpl. apply IH; [assumption | lia].
Qed.

Section BlockFacts.

Variable digest : string -> string.

Lemma meets_target_zeros (d : Z) (b : Block) :
  meets_target d b ->
  forall i : nat, (i < Z.to_nat d)%nat -> String.get i (hash b) = Some "0"%char.
Proof.
  unfold meets_target, py_prefix, py_mul. intros Hm i Hi.
  destruct (d <? 0) eqn:Hd; [lia|].
  by apply (substring_zeros_get (Z.to_nat d)).
Qed.

Lemma mine_step_fields (b : Block) :
  index (mine_step digest b) = index b
  /\ previous_hash (mine_step digest b) = previous_hash b
  /\ transactions (mine_step digest b) = transactions b
  /\ timestamp (mine_step digest b) = timestamp b
  /\ merkle_root (mine_step digest b) = merkle_root b
  /\ nonce (mine_step digest b) = nonce b + 1
  /\ hash (mine_step digest b) = calculate_hash digest (mine_step digest b).
Proof. repeat split. Qed.

Lemma mine_iter_fields (k : nat) (b : Block) :
  index (Nat.iter k (mine_step digest) b) = index b
  /\ previous_hash (Nat.iter k (mine_step digest) b) = previous_hash b
  /\ transactions (Nat.iter k (mine_step digest) b) = transactions b
  /\ timestamp (Nat.iter k (mine_step digest) b) = timestamp b
  /\ merkle_root (Nat.iter k (mine_step digest) b) = merkle_root b
  /\ nonce (Nat.iter k (mine_step digest) b) = nonce b + Z.of_nat k.
Proof.
  induction k as [|k IH]; [simpl; repeat split; lia || done|].
  rewrite Nat.iter_succ.
  destruct IH as (Hi & Hp & Htx & Ht & Hm & Hn).
  destruct (mine_step_fields (Nat.iter k (mine_step digest) b))
    as (Hi' & Hp' & Htx' & Ht' & Hm' & Hn' & _).
  repeat split; try congruence. rewrite Hn', Hn. lia.
Qed.

Lemma mine_iter_hash (k : nat) (b : Block) :
  (0 < k)%nat ->
  hash (Nat.iter k (mine_step digest) b)
  = calculate_hash digest (Nat.iter k (mine_step digest) b).
Proof. destruct k; [lia|]. intros _. rewrite Nat.iter_succ. reflexivity. Qed.

(** What a finished run of the loop did: [k] iterations of the body, the
    first [k] hashes missing the target and the last one meeting it. *)
Lemma mine_block_ret (fuel : nat) (d : Z) :
  forall b b' : Block,
    mine_block digest fuel d b = Ret b' ->
    exists k : nat,
      (k <= fuel)%nat
      /\ b' = Nat.iter k (mine_step digest) b
      /\ meets_target d b'
      /\ forall j : nat, (j < k)%nat -> ~ meets_target d (Nat.iter j (mine_step digest) b).
Proof.
  induction fuel as [|fuel IH]; intros b b' Hrun; cbn [mine_block] in Hrun;
    destruct (decide _) as [Hmiss|Hhit]; try discriminate.
  - injection Hrun as <-. exists 0%nat.
    repeat split; [lia | unfold meets_target; by apply dec_stable | lia].
  - destruct (IH _ _ Hrun) as (k & Hk & -> & Hm & Hbefore).
    exists (S k). rewrite Nat.iter_succ_r. repeat split; [lia | done |].
    intros [|j] Hj; [exact Hmiss|].
    rewrite Nat.iter_succ_r. apply Hbefore. lia.
  - injection Hrun as <-. exists 0%nat.
    repeat split; [lia | unfold meets_target; by apply dec_stable | lia].
Qed.


(** The loop finishes as soon as the budget covers a nonce that meets the
    target. *)
Lemma mine_block_finds (fuel : nat) (d : Z) :
  forall (b : Block) (k : nat),
    (k <= fuel)%nat ->
    meets_target d (Nat.iter k (mine_step digest) b) ->
    exists b' : Block, mine_block digest fuel d b = Ret b'.
Proof.
  induction fuel as [|fuel IH]; intros b k Hk Hm; cbn [mine_block];
    destruct (decide _) as [Hmiss|Hhit]; eauto.
  - assert (k = 0%nat) as -> by lia. contradiction.
  - destruct k as [|k]; [contradiction|].
    rewrite Nat.iter_succ_r in Hm. apply (IH _ k); [lia | exact Hm].
Qed.

(** Mining keeps a consistent stored hash consistent. *)
Lemma mine_block_keeps_hash (fuel : nat) (d : Z) (b b' : Block) :
  hash b = calculate_hash digest b ->
  mine_block digest fuel d b = Ret b' ->
  hash b' = calculate_hash digest b'.
Proof.
  intros Hb Hrun. destruct (mine_block_ret _ _ _ _ Hrun) as (k & _ & -> & _).
  destruct k; [exact Hb | reflexivity].
Qed.

Lemma Block_init_ret (limit : nat) (now i : Z) (p : string)
    (txs : list Transaction) (t : option Z) (n : Z) (b : Block) :
  Block_init digest limit now i p txs t n = Ret b ->
  index b = i /\ previous_hash b = p /\ transactions b = txs
  /\ timestamp b = py_or t now /\ nonce b = n
  /\ build_tree digest limit
       ((fun tx => hash_data digest (Transaction_repr tx)) <$> txs)
     = Ret (merkle_root b)
  /\ hash b = calculate_hash digest b.
Proof.
  unfold Block_init, MerkleTree_init. intros Hb.
  destruct (build_tree _ _ _) as [r| |]; try discriminate.
  cbn in Hb. injection Hb as <-. repeat split.
Qed.

(** C2. [calculate_hash] reads [index], [previous_hash], [merkle_root],
    [timestamp] and [nonce] only: two blocks that agree on these five fields
    have the same digest even if their transaction lists (or stored hashes)
    differ, and reassigning [transactions] leaves the result unchanged. *)
Theorem calculate_hash_header_only (b1 b2 : Block) :
  index b1 = index b2 ->
  previous_hash b1 = previous_hash b2 ->
  merkle_root b1 = merkle_root b2 ->
  timestamp b1 = timestamp b2 ->
  nonce b1 = nonce b2 ->
  calculate_hash digest b1 = calculate_hash digest b2
  /\ forall txs : list Transaction,
       calculate_hash digest (set_transactions txs b1) = calculate_hash digest b1.
Proof.
  intros Hi Hp Hm Ht Hn. split; [|reflexivity].
  unfold calculate_hash. by rewrite Hi, Hp, Hm, Ht, Hn.
Qed.

(** C3, as the code has it.  The block hash is the digest of
    [str(index) + previous_hash + merkle_root + str(timestamp) + str(nonce)],
    joined without separators.  Two field tuples with the same string are
    equal when their index strings, previous hashes, Merkle roots and
    timestamp strings have pairwise the same lengths. *)
Theorem block_string_injective_same_widths (b : Block)
    (i1 : Z) (p1 m1 : string) (t1 n1 : Z)
    (i2 : Z) (p2 m2 : string) (t2 n2 : Z) :
  String.length (str_int i1) = String.length (str_int i2) ->
  String.length p1 = String.length p2 ->
  String.length m1 = String.length m2 ->
  String.length (str_int t1) = String.length (str_int t2) ->
  block_string i1 p1 m1 t1 n1 = block_string i2 p2 m2 t2 n2 ->
  calculate_hash digest b
  = digest (str_int (index b) +:+ previous_hash b +:+ merkle_root b
              +:+ str_int (timestamp b) +:+ str_int (nonce b))
  /\ i1 = i2 /\ p1 = p2 /\ m1 = m2 /\ t1 = t2 /\ n1 = n2.
Proof.
  unfold block_string, str_int. intros Li Lp Lm Lt Heq.
  split; [reflexivity|].
  apply append_inj_same_length in Heq as [Hi Heq]; [|exact Li].
  apply append_inj_same_length in Heq as [Hp Heq]; [|exact Lp].
  apply append_inj_same_length in Heq as [Hm Heq]; [|exact Lm].
  apply append_inj_same_length in Heq as [Ht Hn]; [|exact Lt].
  repeat split; try assumption; by apply (inj pretty).
Qed.

(** C8. When [mine_block] returns, the first [d] characters of the stored
    hash are all ['0'] (the loop condition is false); the block is the
    result of some number [k] of runs of the loop body, each of which adds 1
    to [nonce] and stores the recomputed hash; every earlier hash missed the
    target; no field other than [nonce] and [hash] has changed. *)
Theorem mine_block_postcondition (fuel : nat) (d : Z) (b b' : Block) :
  mine_block digest fuel d b = Ret b' ->
  (forall i : nat, (i < Z.to_nat d)%nat -> String.get i (hash b') = Some "0"%char)
  /\ py_prefix (hash b') d = py_mul "0" d
  /\ (exists k : nat,
        b' = Nat.iter k (mine_step digest) b
        /\ nonce b' = nonce b + Z.of_nat k
        /\ (k = 0%nat -> hash b' = hash b)
        /\ ((0 < k)%nat -> hash b' = calculate_hash digest b')
        /\ forall j : nat, (j < k)%nat ->
             py_prefix (hash (Nat.iter j (mine_step digest) b)) d <> py_mul "0" d)
  /\ (forall x : Block,
        mine_step digest x
        = set_hash (calculate_hash digest (set_nonce (nonce x + 1) x))
                   (set_nonce (nonce x + 1) x))
  /\ index b' = index b
  /\ previous_hash b' = previous_hash b
  /\ transactions b' = transactions b
  /\ timestamp b' = timestamp b
  /\ merkle_root b' = merkle_root b.
Proof.
  intros Hrun.
  destruct (mine_block_ret _ _ _ _ Hrun) as (k & _ & -> & Hm & Hbefore).
  destruct (mine_iter_fields k b) as (Hi & Hp & Htx & Ht & Hr & Hn).
  split; [by apply meets_target_zeros|]. split; [exact Hm|].
  split; [|by repeat split].
  exists k. repeat split; try done.
  - by intros ->.
  - apply mine_iter_hash.
Qed.

(** C9, as the code has it.  The stored hash of a block equals
    [calculate_hash()] right after construction, and still does after mining
    the constructed block.  For a block in any state, [mine_block] returns it
    with a stored hash equal to [calculate_hash()] exactly when the hash was
    equal before mining or did not meet the target, so that the loop ran; a
    block whose stored hash already meets the target is returned as it is,
    stale hash included. *)
Theorem stored_hash_recomputable (fuel : nat) (d : Z) (b b' : Block) :
  mine_block digest fuel d b = Ret b' ->
  (forall (limit : nat) (now i : Z) (p : string) (txs : list Transaction)
          (t : option Z) (n : Z) (x : Block),
      Block_init digest limit now i p txs t n = Ret x ->
      hash x = calculate_hash digest x
      /\ forall (fuel' : nat) (d' : Z) (x' : Block),
           mine_block digest fuel' d' x = Ret x' -> hash x' = calculate_hash digest x')
  /\ (meets_target d b -> b' = b)
  /\ (hash b' = calculate_hash digest b'
      <-> hash b = calculate_hash digest b \/ ~ meets_target d b).
Proof.
  intros Hrun. split.
  { intros limit now i p txs t n x Hx.
    apply Block_init_ret in Hx as (_ & _ & _ & _ & _ & _ & Hh).
    split; [exact Hh|]. intros fuel' d' x'. by apply mine_block_keeps_hash. }
  destruct (mine_block_ret _ _ _ _ Hrun) as (k & _ & -> & Hm & Hbefore).
  split.
  - intros Hmeets. destruct k as [|k]; [reflexivity|].
    exfalso. apply (Hbefore 0%nat); [lia | exact Hmeets].
  - split.
    + intros Hh. destruct k as [|k]; [left; exact Hh|].
      right. apply (Hbefore 0%nat). lia.
    + intros [Hh|Hmiss].
      * destruct k as [|k]; [exact Hh | apply mine_iter_hash; lia].
      * destruct k as [|k]; [contradiction | apply mine_iter_hash; lia].
Qed.

End BlockFacts.

Lemma calculate_hash_header_only_witness :
  calculate_hash Scenario.sha256 (set_transactions [Scenario.alice_mallory] Scenario.mined_block)
  = calculate_hash Scenario.sha256 Scenario.mined_block.
Proof.
  apply (calculate_hash_header_only Scenario.sha256
           (set_transactions [Scenario.alice_mallory] Scenario.mined_block)
           Scenario.mined_block); reflexivity.
Defined.

(** C3 as stated fails: with no separators between the fields, the timestamp
    170000000 followed by the nonce 12 reads the same as the timestamp
    1700000001 followed by the nonce 2. *)
Lemma block_string_not_injective :
  ~ (forall (i1 : Z) (p1 m1 : string) (t1 n1 : Z)
            (i2 : Z) (p2 m2 : string) (t2 n2 : Z),
        block_string i1 p1 m1 t1 n1 = block_string i2 p2 m2 t2 n2 ->
        (i1, p1, m1, t1, n1) = (i2, p2, m2, t2, n2)).
Proof.
  intros Hinj.
  specialize (Hinj 1 "0" "ab" 170000000 12 1 "0" "ab" 1700000001 2).
  assert (Heq : block_string 1 "0" "ab" 170000000 12
                = block_string 1 "0" "ab" 1700000001 2)
    by (vm_compute; reflexivity).
  apply Hinj in Heq. discriminate Heq.
Qed.

Lemma block_string_injective_same_widths_witness :
  calculate_hash Scenario.sha256 Scenario.first_block
  = Scenario.sha256
      (str_int (index Scenario.first_block) +:+ previous_hash Scenario.first_block
         +:+ merkle_root Scenario.first_block
         +:+ str_int (timestamp Scenario.first_block)
         +:+ str_int (nonce Scenario.first_block))
  /\ 1 = 1 /\ "0" = "0" /\ "ab" = "ab" /\ 170000000 = 170000000 /\ 12 = 12.
Proof.
  apply (block_string_injective_same_widths Scenario.sha256 Scenario.first_block
           1 "0" "ab" 170000000 12 1 "0" "ab" 170000000 12); reflexivity.
Defined.

Lemma mine_block_postcondition_witness :
  mine_block Scenario.sha256 1000 1 Scenario.second_block = Ret Scenario.mined_block
  /\ nonce Scenario.mined_block = 4
  /\ forall i : nat, (i < Z.to_nat 1)%nat ->
       String.get i (hash Scenario.mined_block) = Some "0"%char.
Proof.
  assert (Hrun : mine_block Scenario.sha256 1000 1 Scenario.second_block
                 = Ret Scenario.mined_block) by (vm_compute; reflexivity).
  split; [exact Hrun|]. split; [reflexivity|].
  apply (mine_block_postcondition Scenario.sha256 1000 1 _ _ Hrun).
Defined.

Lemma stored_hash_recomputable_witness :
  mine_block Scenario.sha256 1000 1 Scenario.second_block = Ret Scenario.mined_block
  /\ (hash Scenario.mined_block = calculate_hash Scenario.sha256 Scenario.mined_block
      <-> hash Scenario.second_block
          = calculate_hash Scenario.sha256 Scenario.second_block
          \/ ~ meets_target 1 Scenario.second_block).
Proof.
  assert (Hrun : mine_block Scenario.sha256 1000 1 Scenario.second_block
                 = Ret Scenario.mined_block) by (vm_compute; reflexivity).
  split; [exact Hrun|].
  apply (stored_hash_recomputable Scenario.sha256 1000 1 _ _ Hrun).
Defined.

(** C9 as stated fails after mining.  [Block(1, "0", [alice_bob],
    timestamp=1700000070)] is built with a hash that starts with a zero.
    [add_block] assigns it the tip's hash as [previous_hash] and calls
    [mine_block(1)]: the stored hash meets the target, the loop body does not
    run, and mining completes with a stored hash that is no longer
    [calculate_hash()]. *)
Lemma mining_can_return_a_stale_hash :
  Block_init Scenario.sha256 8 0 1 "0" [Scenario.alice_bob] (Some 1700000070) 0
  = Ret Scenario.lucky_block
  /\ hash Scenario.lucky_block = calculate_hash Scenario.sha256 Scenario.lucky_block
  /\ deref (objects Scenario.heap_lucky0) 1 = Scenario.lucky_block
  /\ add_block Scenario.sha256 Scenario.save_nothing 1000 Scenario.heap_lucky0 1
     = Ret Scenario.heap_lucky
  /\ get_latest_block (snapshot Scenario.heap_lucky) = Ret Scenario.lucky_tip
  /\ mine_block Scenario.sha256 1000 1
       (set_previous_hash (hash Scenario.first_block) Scenario.lucky_block)
     = Ret Scenario.lucky_tip
  /\ hash Scenario.lucky_tip <> calculate_hash Scenario.sha256 Scenario.lucky_tip.
Proof. repeat split; try (vm_compute; reflexivity). vm_compute. discriminate. Qed.

(** ** Validation and admission *)

Section ChainFacts.

Variable digest : string -> string.

Lemma validate_from_app (c : list Block) (idx1 idx2 : list nat) :
  validate_from digest c (idx1 ++ idx2)
  = match validate_from digest c idx1 with
    | Ret (true, _) => validate_from digest c idx2
    | other => other
    end.
Proof.
  induction idx1 as [|i idx1 IH]; [reflexivity|].
  cbn [app validate_from]. unfold py_index.
  destruct (c !! i) as [cur|]; [|reflexivity].
  destruct (c !! (i - 1)%nat) as [prev|]; [|reflexivity].
  cbn [mbind outcome_bind].
  repeat (destruct (decide _); [reflexivity|]). exact IH.
Qed.

Lemma validate_from_true (c : list Block) (idx : list nat) :
  validate_from digest c idx = Ret (true, []) <-> Forall (linked_at digest c) idx.
Proof.
  induction idx as [|i idx IH]; [by split; [constructor|]|].
  cbn [validate_from]. unfold py_index. split.
  - intros Hrun.
    destruct (c !! i) as [cur|] eqn:Hcur; [|discriminate].
    destruct (c !! (i - 1)%nat) as [prev|] eqn:Hprev; [|discriminate].
    cbn [mbind outcome_bind] in Hrun.
    destruct (decide (hash cur ≠ _)) as [|Hh]; [discriminate|].
    destruct (decide (previous_hash cur ≠ _)) as [|Hp]; [discriminate|].
    constructor; [|by apply IH].
    exists cur, prev. repeat split; try done; by apply dec_stable.
  - intros Hall. apply Forall_cons in Hall as [(cur & prev & -> & -> & Hh & Hp) Hall].
    cbn [mbind outcome_bind].
    rewrite decide_False by (intros Hne; by apply Hne).
    rewrite decide_False by (intros Hne; by apply Hne).
    by apply IH.
Qed.

(** The loop reads the chain at the indices it visits and at their
    predecessors only. *)
Lemma validate_from_ext (c c' : list Block) (idx : list nat) :
  Forall (fun i => c' !! i = c !! i /\ c' !! (i - 1)%nat = c !! (i - 1)%nat) idx ->
  validate_from digest c' idx = validate_from digest c idx.
Proof.
  induction 1 as [|i idx [Hi Hp] _ IH]; [reflexivity|].
  cbn [validate_from]. unfold py_index. rewrite Hi, Hp.
  destruct (c !! i); [|reflexivity].
  destruct (c !! (i - 1)%nat); [|reflexivity].
  cbn [mbind outcome_bind]. by rewrite IH.
Qed.

(** A change to the blocks that keeps [hash], [previous_hash] and the
    recomputed hash is invisible to the loop. *)
Lemma validate_from_fmap (f : Block -> Block) (c : list Block) (idx : list nat) :
  (forall b, hash (f b) = hash b) ->
  (forall b, previous_hash (f b) = previous_hash b) ->
  (forall b, calculate_hash digest (f b) = calculate_hash digest b) ->
  forall j : nat,
    validate_from digest (alter f j c) idx = validate_from digest c idx.
Proof.
  intros Hh Hp Hc j. induction idx as [|i idx IH]; [reflexivity|].
  cbn [validate_from]. unfold py_index.
  assert (Hlook : forall k, alter f j c !! k = None /\ c !! k = None
            \/ exists b b', alter f j c !! k = Some b' /\ c !! k = Some b
                 /\ hash b' = hash b /\ previous_hash b' = previous_hash b
                 /\ calculate_hash digest b' = calculate_hash digest b).
  { intros k. destruct (decide (j = k)) as [->|Hne].
    - rewrite list_lookup_alter_eq. destruct (c !! k) as [b|]; [|by left].
      right. exists b, (f b). by repeat split.
    - rewrite list_lookup_alter_ne by done. destruct (c !! k) as [b|]; [|by left].
      right. exists b, b. by repeat split. }
  destruct (Hlook i) as [[-> ->]|(b & b' & -> & -> & Hh1 & Hp1 & Hc1)];
    [reflexivity|].
  cbn [mbind outcome_bind].
  destruct (Hlook (i - 1)%nat) as [[-> ->]|(a & a' & -> & -> & Hh2 & _ & _)];
    [reflexivity|].
  cbn [mbind outcome_bind]. by rewrite Hh1, Hp1, Hc1, Hh2, IH.
Qed.

(** Validation raises nothing: every index it visits is in range. *)
Lemma is_chain_valid_returns (bc : Blockchain) :
  exists r : bool * list string, is_chain_valid digest bc = Ret r.
Proof.
  unfold is_chain_valid.
  assert (H : forall idx, Forall (fun i => (1 <= i < length (chain bc))%nat) idx ->
              exists r, validate_from digest (chain bc) idx = Ret r).
  { induction 1 as [|i idx Hi _ IH]; [by eexists|].
    cbn [validate_from]. unfold py_index.
    destruct (lookup_lt_is_Some_2 (chain bc) i) as [cur ->]; [lia|].
    destruct (lookup_lt_is_Some_2 (chain bc) (i - 1)) as [prev ->]; [lia|].
    cbn [mbind outcome_bind]. repeat (destruct (decide _); [by eexists|]). exact IH. }
  apply H. apply Forall_forall. intros i Hi. apply elem_of_seq in Hi. lia.
Qed.

Lemma is_chain_valid_singleton (b : Block) (d : Z) (file : string) :
  is_chain_valid digest (mkBlockchain [b] d file) = Ret (true, []).
Proof. reflexivity. Qed.

End ChainFacts.

(** ** Block objects *)

Section HeapFacts.

Variable digest : string -> string.
Variable save_chain : Blockchain -> outcome unit.

Lemma deref_insert_eq (objs : list Block) (id : nat) (b : Block) :
  (id < length objs)%nat -> deref (<[id := b]> objs) id = b.
Proof. intros Hid. unfold deref. by rewrite list_lookup_insert_eq. Qed.

Lemma deref_insert_ne (objs : list Block) (id id' : nat) (b : Block) :
  id' <> id -> deref (<[id := b]> objs) id' = deref objs id'.
Proof. intros Hne. unfold deref. by rewrite list_lookup_insert_ne. Qed.

(** An assignment to an object the chain does not hold leaves the chain as
    it reads. *)
Lemma deref_insert_fresh (objs : list Block) (ids : list nat) (id : nat) (b : Block) :
  id ∉ ids -> deref (<[id := b]> objs) <$> ids = deref objs <$> ids.
Proof.
  intros Hfresh. apply list_fmap_ext. intros i id' Hid'.
  apply deref_insert_ne. intros ->. apply Hfresh. by eapply list_elem_of_lookup_2.
Qed.

(** [add_block] on an object that exists: one assignment of the mined state
    stands for the assignments made on the way. *)
Lemma add_block_allocated (fuel : nat) (h : Heap) (new_block : nat) :
  (new_block < length (objects h))%nat ->
  add_block digest save_chain fuel h new_block
  = (tip ← get_latest_block (snapshot h);
     mined ← mine_block digest fuel (heap_difficulty h)
               (set_previous_hash (hash tip) (deref (objects h) new_block));
     _ ← save_chain
           (snapshot (mkHeap (<[new_block := mined]> (objects h))
                             (chain_ids h ++ [new_block])
                             (heap_difficulty h) (heap_filename h)));
     mret (mkHeap (<[new_block := mined]> (objects h)) (chain_ids h ++ [new_block])
                  (heap_difficulty h) (heap_filename h))).
Proof.
  intros Hid. unfold add_block.
  destruct (get_latest_block (snapshot h)) as [tip| |]; try reflexivity.
  cbn [mbind outcome_bind]. rewrite deref_insert_eq by exact Hid.
  destruct (mine_block digest fuel _ _) as [mined| |]; try reflexivity.
  cbn [mbind outcome_bind]. by rewrite list_insert_insert_eq.
Qed.

Lemma add_block_ret (fuel : nat) (h h' : Heap) (new_block : nat) :
  (new_block < length (objects h))%nat ->
  add_block digest save_chain fuel h new_block = Ret h' ->
  exists tip mined : Block,
    last (chain (snapshot h)) = Some tip
    /\ mine_block digest fuel (heap_difficulty h)
         (set_previous_hash (hash tip) (deref (objects h) new_block)) = Ret mined
    /\ h' = mkHeap (<[new_block := mined]> (objects h)) (chain_ids h ++ [new_block])
                   (heap_difficulty h) (heap_filename h).
Proof.
  intros Hid. rewrite add_block_allocated by exact Hid.
  unfold get_latest_block, py_last.
  destruct (last (chain (snapshot h))) as [tip|]; [|discriminate].
  cbn [mbind outcome_bind].
  destruct (mine_block digest fuel _ _) as [mined| |] eqn:Hmine; try discriminate.
  cbn [mbind outcome_bind].
  destruct (save_chain _) as [[]| |]; try discriminate.
  unfold mret, outcome_ret. intros [= <-]. by exists tip, mined.
Qed.

(** The chain as it reads after an admission: the positions that held
    [new_block] show its mined state, as does the new last position. *)
Lemma snapshot_admitted (h : Heap) (new_block : nat) (mined : Block) :
  (new_block < length (objects h))%nat ->
  chain (snapshot (mkHeap (<[new_block := mined]> (objects h))
                          (chain_ids h ++ [new_block])
                          (heap_difficulty h) (heap_filename h)))
  = (deref (<[new_block := mined]> (objects h)) <$> chain_ids h) ++ [mined].
Proof.
  intros Hid. cbn [snapshot chain objects chain_ids].
  by rewrite fmap_app, list_fmap_singleton, deref_insert_eq.
Qed.

(** Validating a chain with one more block at its end: the checks of the
    old chain, then the two checks of the new block against the old tip. *)
Lemma validate_snoc (c : list Block) (tip b : Block) :
  last c = Some tip ->
  validate_from digest (c ++ [b]) (seq 1 (length (c ++ [b]) - 1))
  = match validate_from digest c (seq 1 (length c - 1)) with
    | Ret (true, _) =>
        if decide (hash b ≠ calculate_hash digest b)
        then Ret (false, [invalid_block_message (length c) "hash mismatch"])
        else if decide (previous_hash b ≠ hash tip)
        then Ret (false, [invalid_block_message (length c) "previous hash mismatch"])
        else Ret (true, [])
    | other => other
    end.
Proof.
  intros Hlast.
  assert (Hpos : (0 < length c)%nat).
  { destruct c; [discriminate | simpl; lia]. }
  rewrite length_app. cbn [length].
  replace (length c + 1 - 1)%nat with (S (length c - 1)) by lia.
  rewrite seq_S. replace (1 + (length c - 1))%nat with (length c) by lia.
  rewrite validate_from_app.
  rewrite (validate_from_ext digest c).
  2:{ apply Forall_forall. intros j Hj. apply elem_of_seq in Hj.
      split; apply lookup_app_l; lia. }
  destruct (validate_from digest c _) as [[[] out]| |]; try reflexivity.
  cbn [validate_from]. unfold py_index.
  assert (Hcur : (c ++ [b]) !! length c = Some b).
  { rewrite lookup_app_r by lia. by rewrite Nat.sub_diag. }
  assert (Hprev : (c ++ [b]) !! (length c - 1)%nat = Some tip).
  { rewrite lookup_app_l by lia. rewrite <- Hlast, last_lookup. f_equal. lia. }
  rewrite Hcur. cbn [mbind outcome_bind].
  rewrite Hprev. cbn [mbind outcome_bind].
  repeat (destruct (decide _); [reflexivity|]). reflexivity.
Qed.

End HeapFacts.

Section ChainClaims.

Variable digest : string -> string.
Variable save_chain : Blockchain -> outcome unit.
Variable load_chain : Blockchain -> outcome Blockchain.

(** Reassigning the transactions of any block changes neither the verdict
    of [is_chain_valid] nor what it prints. *)
Lemma is_chain_valid_ignores_transactions (bc : Blockchain) (i : nat)
    (txs : list Transaction) :
  is_chain_valid digest (set_chain (alter (set_transactions txs) i (chain bc)) bc)
  = is_chain_valid digest bc.
Proof.
  unfold is_chain_valid. cbn [chain set_chain]. rewrite length_alter.
  by apply validate_from_fmap.
Qed.

(** C4, as the code has it.  In a chain that validates, giving block
    [i >= 1] another [previous_hash] and leaving everything else alone makes
    [is_chain_valid] return false and report index [i].  The stored hash is
    checked first, so the reason is "hash mismatch"; it is "previous hash
    mismatch" only if the stored hash happens to equal the digest of the
    altered header. *)
Theorem previous_hash_mutation_detected (bc : Blockchain) (i : nat)
    (b : Block) (p : string) :
  is_chain_valid digest bc = Ret (true, []) ->
  (1 <= i)%nat ->
  chain bc !! i = Some b ->
  p <> previous_hash b ->
  is_chain_valid digest
    (set_chain (<[i := set_previous_hash p b]> (chain bc)) bc)
  = Ret (false,
         [invalid_block_message i
            (if decide (hash b <> calculate_hash digest (set_previous_hash p b))
             then "hash mismatch" else "previous hash mismatch")]).
Proof.
  unfold is_chain_valid. cbn [chain set_chain]. rewrite length_insert.
  set (c := chain bc). intros Hvalid Hi Hb Hp.
  assert (Hlen : (i < length c)%nat) by (by eapply lookup_lt_Some).
  replace (length c - 1)%nat with ((i - 1) + S (length c - 1 - i))%nat
    in * by lia.
  rewrite seq_app in *. replace (1 + (i - 1))%nat with i in * by lia.
  apply validate_from_true, Forall_app in Hvalid as [Hbefore Hat].
  rewrite validate_from_app.
  rewrite (validate_from_ext digest c).
  2:{ apply Forall_forall. intros j Hj. apply elem_of_seq in Hj.
      split; apply list_lookup_insert_ne; lia. }
  apply validate_from_true in Hbefore. rewrite Hbefore.
  cbn [seq] in Hat. apply Forall_cons in Hat as [(cur & prev & Hcur & Hprev & Hh & Hl) _].
  assert (cur = b) as -> by congruence.
  cbn [seq validate_from]. unfold py_index.
  rewrite list_lookup_insert_eq by done.
  rewrite list_lookup_insert_ne by lia. rewrite Hprev.
  cbn [mbind outcome_bind hash previous_hash set_previous_hash].
  destruct (decide (hash b ≠ _)) as [Hne|Heq].
  - reflexivity.
  - rewrite decide_True by congruence. reflexivity.
Qed.

(** C6, as the code has it.  [add_block(new_block)] assigns the old tip's
    hash to [new_block.previous_hash], mines [new_block] and appends it, all
    on the object handed in.  When it returns, the chain is the old list of
    objects followed by [new_block], and the new tip is the block
    [mine_block] returned for the linked [new_block]: its [previous_hash] is
    the old tip's hash, its hash meets the target, and its index is the one
    [new_block] was constructed with, which [add_block] never assigns.
    Positions of the old chain that hold other objects read as before;
    positions that already held [new_block] read as the new tip.  If
    [new_block] was not in the chain, the old chain validates, and the stored
    hash of [new_block] either matches its header once linked to the tip or
    does not yet meet the difficulty target, the new chain validates. *)
Theorem add_block_postcondition (fuel : nat) (h h' : Heap) (new_block : nat) :
  (new_block < length (objects h))%nat ->
  add_block digest save_chain fuel h new_block = Ret h' ->
  exists old_tip mined : Block,
    get_latest_block (snapshot h) = Ret old_tip
    /\ mine_block digest fuel (heap_difficulty h)
         (set_previous_hash (hash old_tip) (deref (objects h) new_block))
       = Ret mined
    /\ h' = mkHeap (<[new_block := mined]> (objects h)) (chain_ids h ++ [new_block])
                   (heap_difficulty h) (heap_filename h)
    /\ get_latest_block (snapshot h') = Ret mined
    /\ (forall i id : nat,
          chain_ids h !! i = Some id ->
          chain (snapshot h') !! i
          = Some (if decide (id = new_block) then mined else deref (objects h) id))
    /\ (new_block ∉ chain_ids h -> chain (snapshot h') = chain (snapshot h) ++ [mined])
    /\ previous_hash mined = hash old_tip
    /\ meets_target (heap_difficulty h) mined
    /\ index mined = index (deref (objects h) new_block)
    /\ transactions mined = transactions (deref (objects h) new_block)
    /\ timestamp mined = timestamp (deref (objects h) new_block)
    /\ merkle_root mined = merkle_root (deref (objects h) new_block)
    /\ (new_block ∉ chain_ids h ->
        is_chain_valid digest (snapshot h) = Ret (true, []) ->
        hash (deref (objects h) new_block)
          = calculate_hash digest
              (set_previous_hash (hash old_tip) (deref (objects h) new_block))
        \/ ~ meets_target (heap_difficulty h) (deref (objects h) new_block) ->
        is_chain_valid digest (snapshot h') = Ret (true, [])).
Proof.
  intros Hid Hadd.
  destruct (add_block_ret _ _ _ _ _ _ Hid Hadd) as (tip & mined & Htip & Hmine & ->).
  destruct (mine_block_ret _ _ _ _ _ Hmine) as (k & _ & Hk & Hmeets & _).
  destruct (mine_iter_fields digest k
              (set_previous_hash (hash tip) (deref (objects h) new_block)))
    as (Hi & Hp & Htx & Ht & Hm & _). rewrite <- Hk in Hi, Hp, Htx, Ht, Hm.
  assert (Hchain := snapshot_admitted h new_block mined Hid).
  exists tip, mined.
  split; [unfold get_latest_block, py_last; by rewrite Htip|].
  split; [exact Hmine|]. split; [reflexivity|].
  split; [unfold get_latest_block, py_last; by rewrite Hchain, last_snoc|].
  split.
  { intros i id Hlook. rewrite Hchain.
    rewrite lookup_app_l by (rewrite length_fmap; by eapply lookup_lt_Some).
    rewrite list_lookup_fmap, Hlook. cbn [fmap option_fmap option_map]. f_equal.
    destruct (decide (id = new_block)) as [->|Hne];
      [by apply deref_insert_eq | by apply deref_insert_ne]. }
  split; [intros Hfresh; by rewrite Hchain, deref_insert_fresh|].
  split; [exact Hp|]. split; [exact Hmeets|]. split; [exact Hi|].
  split; [exact Htx|]. split; [exact Ht|]. split; [exact Hm|].
  intros Hfresh Hvalid Hcase. unfold is_chain_valid in *.
  rewrite Hchain, deref_insert_fresh by exact Hfresh.
  change (deref (objects h) <$> chain_ids h) with (chain (snapshot h)).
  rewrite (validate_snoc digest _ tip) by exact Htip. rewrite Hvalid.
  rewrite decide_False.
  - rewrite decide_False; [reflexivity|]. intros Hne. by apply Hne.
  - intros Hne. apply Hne.
    destruct k as [|k]; [|rewrite Hk, Nat.iter_succ; reflexivity].
    cbn in Hk. subst mined. destruct Hcase as [Hsame|Hmiss]; [exact Hsame|].
    exfalso. apply Hmiss. exact Hmeets.
Qed.

(** The constructor of the ledger never returns: building the genesis block
    asks for the Merkle root of an empty transaction list. *)
Lemma Block_init_no_transactions (limit : nat) (now i : Z) (p : string)
    (t : option Z) (n : Z) :
  Block_init digest limit now i p [] t n = Raise RecursionError.
Proof.
  unfold Block_init, MerkleTree_init. cbn [fmap list_fmap].
  by rewrite build_tree_nil.
Qed.

End ChainClaims.

(** C1.  The claim and [test_is_chain_valid] expect a chain whose block has
    had its transactions replaced to fail validation with "hash mismatch".
    The code does otherwise: [calculate_hash] reads the Merkle root stored at
    construction, so for every chain, index and replacement the verdict and
    the output of [is_chain_valid] are those of the untouched chain; the
    admitted two-block ledger still validates after
    [chain[1].transactions = [Transaction("Alice", "Mallory", 100)]]. *)
Theorem replaced_transactions_pass_validation :
  (forall (digest : string -> string) (bc : Blockchain) (i : nat)
          (txs : list Transaction),
      is_chain_valid digest
        (set_chain (alter (set_transactions txs) i (chain bc)) bc)
      = is_chain_valid digest bc)
  /\ snapshot Scenario.heap0 = Scenario.ledger0
  /\ deref (objects Scenario.heap0) 1 = Scenario.second_block
  /\ add_block Scenario.sha256 Scenario.save_nothing 1000 Scenario.heap0 1
     = Ret Scenario.heap1
  /\ snapshot Scenario.heap1 = Scenario.ledger1
  /\ transactions <$> chain Scenario.ledger1
     = [[Scenario.alice_bob]; [Scenario.alice_bob]]
  /\ transactions <$> chain Scenario.ledger1_new_transactions
     = [[Scenario.alice_bob]; [Scenario.alice_mallory]]
  /\ is_chain_valid Scenario.sha256 Scenario.ledger1_new_transactions
     = Ret (true, []).
Proof.
  split; [exact is_chain_valid_ignores_transactions|].
  repeat split; vm_compute; reflexivity.
Qed.

(** C4 as stated fails: after [chain[1].previous_hash = "0"] on the admitted
    two-block ledger, validation reports "hash mismatch" at index 1, not
    "previous hash mismatch". *)
Lemma previous_hash_mutation_reports_hash_mismatch :
  is_chain_valid Scenario.sha256 Scenario.ledger1 = Ret (true, [])
  /\ is_chain_valid Scenario.sha256 Scenario.ledger1_new_previous_hash
     = Ret (false, ["Invalid block at index 1: hash mismatch."])
  /\ is_chain_valid Scenario.sha256 Scenario.ledger1_new_previous_hash
     <> Ret (false, ["Invalid block at index 1: previous hash mismatch."]).
Proof.
  assert (H : is_chain_valid Scenario.sha256 Scenario.ledger1_new_previous_hash
              = Ret (false, ["Invalid block at index 1: hash mismatch."]))
    by (vm_compute; reflexivity).
  split; [vm_compute; reflexivity|]. split; [exact H|].
  rewrite H. discriminate.
Qed.

Lemma previous_hash_mutation_detected_witness :
  is_chain_valid Scenario.sha256 Scenario.ledger1 = Ret (true, [])
  /\ chain Scenario.ledger1 !! 1%nat = Some Scenario.mined_block
  /\ "0" <> previous_hash Scenario.mined_block
  /\ is_chain_valid Scenario.sha256
       (set_chain (<[1%nat := set_previous_hash "0" Scenario.mined_block]>
                     (chain Scenario.ledger1)) Scenario.ledger1)
     = Ret (false,
            [invalid_block_message 1
               (if decide (hash Scenario.mined_block
                           <> calculate_hash Scenario.sha256
                                (set_previous_hash "0" Scenario.mined_block))
                then "hash mismatch" else "previous hash mismatch")]).
Proof.
  assert (Hvalid : is_chain_valid Scenario.sha256 Scenario.ledger1 = Ret (true, []))
    by (vm_compute; reflexivity).
  assert (Hb : chain Scenario.ledger1 !! 1%nat = Some Scenario.mined_block)
    by reflexivity.
  assert (Hp : "0" <> previous_hash Scenario.mined_block) by discriminate.
  split; [exact Hvalid|]. split; [exact Hb|]. split; [exact Hp|].
  apply (previous_hash_mutation_detected Scenario.sha256 Scenario.ledger1 1
           Scenario.mined_block "0" Hvalid); [lia | exact Hb | exact Hp].
Defined.

(** C6 as stated fails: [add_block] links and mines the block it is given
    and leaves its index alone, so a block constructed with index 7 becomes
    the tip after the block of index 0. *)
Lemma add_block_keeps_the_index_it_is_given :
  snapshot Scenario.heap_stray0 = Scenario.ledger0
  /\ deref (objects Scenario.heap_stray0) 1 = Scenario.stray_block
  /\ add_block Scenario.sha256 Scenario.save_nothing 1000 Scenario.heap_stray0 1
     = Ret Scenario.heap_stray
  /\ snapshot Scenario.heap_stray = Scenario.ledger_stray
  /\ get_latest_block Scenario.ledger0 = Ret Scenario.first_block
  /\ get_latest_block Scenario.ledger_stray = Ret Scenario.stray_tip
  /\ index Scenario.first_block = 0
  /\ index Scenario.stray_tip = 7
  /\ index Scenario.stray_tip <> index Scenario.first_block + 1.
Proof. repeat split; try (vm_compute; reflexivity). vm_compute. discriminate. Qed.

Lemma add_block_postcondition_witness :
  add_block Scenario.sha256 Scenario.save_nothing 1000 Scenario.heap0 1
  = Ret Scenario.heap1
  /\ exists old_tip mined : Block,
       get_latest_block (snapshot Scenario.heap0) = Ret old_tip
       /\ mine_block Scenario.sha256 1000 1
            (set_previous_hash (hash old_tip) Scenario.second_block) = Ret mined
       /\ get_latest_block (snapshot Scenario.heap1) = Ret mined
       /\ chain (snapshot Scenario.heap1) = chain (snapshot Scenario.heap0) ++ [mined]
       /\ previous_hash mined = hash old_tip
       /\ index mined = index Scenario.second_block
       /\ is_chain_valid Scenario.sha256 (snapshot Scenario.heap1) = Ret (true, []).
Proof.
  assert (Hid : (1 < length (objects Scenario.heap0))%nat) by (simpl; lia).
  assert (Hadd : add_block Scenario.sha256 Scenario.save_nothing 1000 Scenario.heap0 1
                 = Ret Scenario.heap1)
    by (vm_compute; reflexivity).
  assert (Hfresh : 1%nat ∉ chain_ids Scenario.heap0)
    by (intros Hin; apply list_elem_of_singleton in Hin; discriminate Hin).
  split; [exact Hadd|].
  destruct (add_block_postcondition Scenario.sha256 Scenario.save_nothing 1000
              Scenario.heap0 Scenario.heap1 1 Hid Hadd)
    as (old_tip & mined & H1 & H2 & _ & H4 & _ & H6 & H7 & _ & H9 & _ & _ & _ & H13).
  exists old_tip, mined.
  split; [exact H1|]. split; [exact H2|]. split; [exact H4|].
  split; [exact (H6 Hfresh)|]. split; [exact H7|]. split; [exact H9|].
  apply (H13 Hfresh); [vm_compute; reflexivity|].
  right. vm_compute. discriminate.
Defined.

(** When the stored hash of the block handed to [add_block] already meets the
    target, the loop of [mine_block] does not run and the hash computed for
    the previous [previous_hash] is appended as it is: at difficulty 0 the
    chain no longer validates after the admission. *)
Example add_block_can_append_a_stale_hash :
  snapshot Scenario.heap_easy = Scenario.ledger_easy
  /\ is_chain_valid Scenario.sha256 Scenario.ledger_easy = Ret (true, [])
  /\ add_block Scenario.sha256 Scenario.save_nothing 1000 Scenario.heap_easy 1
     = Ret Scenario.heap_easy_stray
  /\ snapshot Scenario.heap_easy_stray = Scenario.ledger_easy_stray
  /\ is_chain_valid Scenario.sha256 Scenario.ledger_easy_stray
     = Ret (false, ["Invalid block at index 1: hash mismatch."]).
Proof. repeat split; vm_compute; reflexivity. Qed.

(** The block handed to [add_block] may be one the chain already holds.
    [ledger1.add_block(ledger1.chain[1])] links the block at position 1 to
    its own hash: positions 1 and 2 hold the same object, position 1 no
    longer reads as it did, and validation fails at index 1.
    [ledger0.add_block(ledger0.chain[0])] mines the first block again: the
    chain holds it twice and validation reports a broken link at index 1. *)
Example add_block_of_a_block_in_the_chain :
  is_chain_valid Scenario.sha256 (snapshot Scenario.heap1) = Ret (true, [])
  /\ add_block Scenario.sha256 Scenario.save_nothing 1000 Scenario.heap1 1
     = Ret Scenario.heap_again
  /\ chain_ids Scenario.heap_again = [0; 1; 1]%nat
  /\ chain (snapshot Scenario.heap_again) !! 1%nat
     = chain (snapshot Scenario.heap_again) !! 2%nat
  /\ previous_hash <$> chain (snapshot Scenario.heap_again) !! 1%nat
     = Some (hash Scenario.mined_block)
  /\ is_chain_valid Scenario.sha256 (snapshot Scenario.heap_again)
     = Ret (false, ["Invalid block at index 1: hash mismatch."])
  /\ add_block Scenario.sha256 Scenario.save_nothing 1000 Scenario.heap0 0
     = Ret Scenario.heap_self
  /\ chain_ids Scenario.heap_self = [0; 0]%nat
  /\ is_chain_valid Scenario.sha256 (snapshot Scenario.heap_self)
     = Ret (false, ["Invalid block at index 1: previous hash mismatch."]).
Proof. repeat split; vm_compute; reflexivity. Qed.

(** C7.  The claim and [test_create_genesis_block] expect [Blockchain()] to
    return a ledger holding the genesis block.  The code does otherwise:
    [create_genesis_block] builds [Block(0, "0", [])], whose constructor asks
    [build_tree] for the root of no leaves, and that call recurses until the
    interpreter gives up; whatever the digest, the loader, the recursion
    limit, the clock, the difficulty and the file name, the constructor
    raises [RecursionError].  A one-block chain, had it been built, would
    validate. *)
Theorem Blockchain_init_raises :
  (forall (digest : string -> string)
          (load_chain : Blockchain -> outcome Blockchain)
          (limit : nat) (now d : Z) (file : string),
      create_genesis_block digest limit now = Raise RecursionError
      /\ Blockchain_init digest load_chain limit now d file = Raise RecursionError)
  /\ (forall (digest : string -> string) (g : Block) (d : Z) (file : string),
        is_chain_valid digest (mkBlockchain [g] d file) = Ret (true, [])).
Proof.
  split.
  - intros digest load_chain limit now d file.
    unfold Blockchain_init, create_genesis_block.
    rewrite Block_init_no_transactions. split; reflexivity.
  - intros. apply is_chain_valid_singleton.
Qed.

(** * Further properties of the code *)

(** ** The Merkle tree *)

Section MerkleMore.

Variable digest : string -> string.

(** A deeper recursion limit never changes a root that was returned. *)
Theorem build_tree_limit_monotone (limit limit' : nat) (leaves : list string)
    (r : string) :
  build_tree digest limit leaves = Ret r ->
  (limit <= limit')%nat ->
  build_tree digest limit' leaves = Ret r.
Proof.
  revert limit' leaves. induction limit as [|limit IH]; intros limit' leaves Hr Hle.
  - discriminate.
  - destruct limit' as [|limit']; [lia|].
    cbn [build_tree] in *. destruct (decide _); [exact Hr|].
    rewrite parent_layer_of_spec in *. cbn [mbind outcome_bind] in *.
    apply IH; [exact Hr | lia].
Qed.

(** The only way [build_tree] fails is by exhausting the recursion limit:
    its index accesses are always in range. *)
Theorem build_tree_fails_by_recursion_only (limit : nat) (leaves : list string) :
  build_tree digest limit leaves = Raise RecursionError
  \/ exists r : string, build_tree digest limit leaves = Ret r.
Proof.
  revert leaves. induction limit as [|limit IH]; intros leaves; [by left|].
  cbn [build_tree]. destruct (decide _) as [Hone|Hmany].
  - destruct leaves as [|x [|y rest]]; try discriminate. right. by exists x.
  - rewrite parent_layer_of_spec. cbn [mbind outcome_bind]. apply IH.
Qed.

(** The depth of the recursion is logarithmic: up to [2 ^ k] leaves need
    [k + 1] nested calls. *)
Theorem build_tree_log_depth (k : nat) :
  forall leaves : list string,
    leaves <> [] ->
    (length leaves <= 2 ^ k)%nat ->
    build_tree digest (S k) leaves = Ret (spec_merkle_root digest leaves).
Proof.
  induction k as [|k IH]; intros leaves Hne Hlen.
  - destruct leaves as [|x [|y rest]]; [done | reflexivity | simpl in Hlen; lia].
  - destruct leaves as [|x [|y rest]]; [done | reflexivity |].
    cbn [build_tree]. rewrite decide_False by (simpl; lia).
    rewrite parent_layer_of_spec. cbn [mbind outcome_bind].
    rewrite spec_merkle_root_equation_3. apply IH.
    + apply spec_next_layer_nonempty. simpl. lia.
    + unfold spec_next_layer. rewrite spec_pair_up_length.
      pose proof (spec_duplicate_last_if_odd_even (x :: y :: rest)) as [m Hm].
      pose proof (spec_duplicate_last_if_odd_length (x :: y :: rest)) as Hd.
      rewrite Hm in *. rewrite Nat.mul_comm, Nat.div_mul by lia.
      rewrite Nat.pow_succ_r' in Hlen. lia.
Qed.

(** An odd layer of more than one leaf and the same layer with its last leaf
    repeated have the same root. *)
Theorem build_tree_repeated_last_leaf (limit : nat) (leaves : list string)
    (x : string) :
  Nat.odd (length leaves) = true ->
  (1 < length leaves)%nat ->
  last leaves = Some x ->
  build_tree digest limit (leaves ++ [x]) = build_tree digest limit leaves.
Proof.
  intros Hodd Hlen Hlast. destruct limit as [|limit]; [reflexivity|].
  cbn [build_tree]. rewrite length_app. cbn [length].
  rewrite !decide_False by lia.
  rewrite !parent_layer_of_spec. cbn [mbind outcome_bind].
  f_equal. unfold spec_next_layer. f_equal.
  unfold spec_duplicate_last_if_odd.
  rewrite Hodd, Hlast, length_app. cbn [length].
  replace (length leaves + 1)%nat with (S (length leaves)) by lia.
  rewrite Nat.odd_succ, <- Nat.negb_odd, Hodd. reflexivity.
Qed.

(** [MerkleTree(transactions)] cannot be built for an empty list; for a
    non-empty one it keeps the transactions and its root is the documented
    reduction of the digests of their [repr]. *)
Theorem MerkleTree_init_outcome (limit : nat) (txs : list Transaction) :
  (txs = [] -> MerkleTree_init digest limit txs = Raise RecursionError)
  /\ (txs <> [] -> (length txs <= limit)%nat ->
      MerkleTree_init digest limit txs
      = Ret (mkMerkleTree txs
               (spec_merkle_root digest
                  ((fun tx => digest (Transaction_repr tx)) <$> txs)))).
Proof.
  unfold MerkleTree_init. split.
  - intros ->. cbn [fmap list_fmap]. by rewrite build_tree_nil.
  - intros Hne Hlen. rewrite build_tree_spec; [reflexivity | |].
    + destruct txs; [done | discriminate].
    + by rewrite length_fmap.
Qed.

End MerkleMore.

Lemma build_tree_limit_monotone_witness :
  exists r : string,
    build_tree Scenario.sha256 3 ["a"; "b"; "c"] = Ret r
    /\ build_tree Scenario.sha256 1000 ["a"; "b"; "c"] = Ret r.
Proof.
  eexists. split; [vm_compute; reflexivity|].
  apply (build_tree_limit_monotone Scenario.sha256 3 1000);
    [vm_compute; reflexivity | lia].
Defined.

Lemma build_tree_log_depth_witness :
  build_tree Scenario.sha256 3 ["a"; "b"; "c"; "d"]
  = Ret (spec_merkle_root Scenario.sha256 ["a"; "b"; "c"; "d"]).
Proof.
  apply (build_tree_log_depth Scenario.sha256 2); [discriminate | simpl; lia].
Defined.

Lemma build_tree_repeated_last_leaf_witness :
  build_tree Scenario.sha256 5 (["a"; "b"; "c"] ++ ["c"])
  = build_tree Scenario.sha256 5 ["a"; "b"; "c"].
Proof.
  apply (build_tree_repeated_last_leaf Scenario.sha256 5 ["a"; "b"; "c"] "c");
    [reflexivity | simpl; lia | reflexivity].
Defined.

(** ** Strings *)

Lemma string_app_cons (c : ascii) (s t : string) :
  String c s +:+ t = String c (s +:+ t).
Proof. reflexivity. Qed.

Lemma string_app_assoc (s1 s2 s3 : string) :
  (s1 +:+ s2) +:+ s3 = s1 +:+ s2 +:+ s3.
Proof.
  induction s1 as [|c s1 IH]; [reflexivity|].
  by rewrite !string_app_cons, IH.
Qed.

Lemma string_app_length (s1 s2 : string) :
  String.length (s1 +:+ s2) = (String.length s1 + String.length s2)%nat.
Proof.
  induction s1 as [|c s1 IH]; [reflexivity|].
  rewrite string_app_cons. cbn [String.length]. by rewrite IH.
Qed.

Lemma string_app_inv_tail (s1 s2 t : string) :
  s1 +:+ t = s2 +:+ t -> s1 = s2.
Proof.
  intros Heq. apply (append_inj_same_length s1 s2 t t); [|exact Heq].
  apply (f_equal String.length) in Heq. rewrite !string_app_length in Heq. lia.
Qed.



(** ** Transactions *)

(** [repr] separates the fields with " -> " and ": " only, so a receiver
    that contains " -> " reads like a longer sender: two different
    transactions have the same [repr], hence the same Merkle leaf, and blocks
    built from them get the same Merkle root and the same hash. *)
Theorem Transaction_repr_ambiguous (digest : string -> string)
    (s r1 r2 : string) (a : Z) (limit : nat) (now i : Z) (p : string)
    (pre post : list Transaction) (t : option Z) (n : Z) (b1 b2 : Block) :
  let tx1 := mkTransaction s (r1 +:+ " -> " +:+ r2) a in
  let tx2 := mkTransaction (s +:+ " -> " +:+ r1) r2 a in
  Block_init digest limit now i p (pre ++ tx1 :: post) t n = Ret b1 ->
  Block_init digest limit now i p (pre ++ tx2 :: post) t n = Ret b2 ->
  tx1 <> tx2
  /\ Transaction_repr tx1 = Transaction_repr tx2
  /\ merkle_root b1 = merkle_root b2
  /\ hash b1 = hash b2.
Proof.
  intros tx1 tx2 H1 H2.
  assert (Hrepr : Transaction_repr tx1 = Transaction_repr tx2).
  { unfold Transaction_repr, tx1, tx2. cbn [sender receiver amount].
    f_equal. by rewrite !string_app_assoc. }
  split.
  { intros Heq. apply (f_equal (fun tx => String.length (sender tx))) in Heq.
    unfold tx1, tx2 in Heq. cbn [sender] in Heq.
    rewrite !string_app_length in Heq. simpl in Heq. lia. }
  split; [exact Hrepr|].
  apply Block_init_ret in H1 as (Hi1 & Hp1 & _ & Ht1 & Hn1 & Hr1 & Hh1).
  apply Block_init_ret in H2 as (Hi2 & Hp2 & _ & Ht2 & Hn2 & Hr2 & Hh2).
  assert (Hroot : merkle_root b1 = merkle_root b2).
  { rewrite !fmap_app, !fmap_cons in Hr1, Hr2. rewrite Hrepr in Hr1. congruence. }
  split; [exact Hroot|].
  rewrite Hh1, Hh2. unfold calculate_hash. congruence.
Qed.

(** When the senders have the same length and the receivers have the same
    length, [repr] determines the transaction. *)
Theorem Transaction_repr_injective_same_widths (tx1 tx2 : Transaction) :
  String.length (sender tx1) = String.length (sender tx2) ->
  String.length (receiver tx1) = String.length (receiver tx2) ->
  Transaction_repr tx1 = Transaction_repr tx2 ->
  tx1 = tx2.
Proof.
  destruct tx1 as [s1 r1 a1], tx2 as [s2 r2 a2].
  unfold Transaction_repr. cbn [sender receiver amount]. intros Ls Lr Heq.
  apply (inj (String.app "Transaction(")) in Heq.
  apply append_inj_same_length in Heq as [-> Heq]; [|exact Ls].
  apply (inj (String.app " -> ")) in Heq.
  apply append_inj_same_length in Heq as [-> Heq]; [|exact Lr].
  apply (inj (String.app ": ")) in Heq.
  apply string_app_inv_tail in Heq. apply (inj pretty) in Heq. by subst.
Qed.

Lemma Transaction_repr_ambiguous_witness :
  mkTransaction "Alice" ("Bob" +:+ " -> " +:+ "Carol") 5
  <> mkTransaction ("Alice" +:+ " -> " +:+ "Bob") "Carol" 5
  /\ Transaction_repr (mkTransaction "Alice" ("Bob" +:+ " -> " +:+ "Carol") 5)
     = Transaction_repr (mkTransaction ("Alice" +:+ " -> " +:+ "Bob") "Carol" 5).
Proof.
  destruct (Transaction_repr_ambiguous Scenario.sha256 "Alice" "Bob" "Carol" 5
              8 0 1 "0" [] [] (Some 1700000000) 0
              (Scenario.returned Scenario.no_block
                 (Block_init Scenario.sha256 8 0 1 "0"
                    [mkTransaction "Alice" ("Bob" +:+ " -> " +:+ "Carol") 5]
                    (Some 1700000000) 0))
              (Scenario.returned Scenario.no_block
                 (Block_init Scenario.sha256 8 0 1 "0"
                    [mkTransaction ("Alice" +:+ " -> " +:+ "Bob") "Carol" 5]
                    (Some 1700000000) 0)))
    as (Hne & Hrepr & _); [vm_compute; reflexivity | vm_compute; reflexivity |].
  split; [exact Hne | exact Hrepr].
Defined.

Lemma Transaction_repr_injective_same_widths_witness :
  Transaction_repr Scenario.alice_bob = Transaction_repr (mkTransaction "Alice" "Bob" 10)
  /\ Scenario.alice_bob = mkTransaction "Alice" "Bob" 10.
Proof.
  split; [reflexivity|].
  apply (Transaction_repr_injective_same_widths Scenario.alice_bob
           (mkTransaction "Alice" "Bob" 10)); reflexivity.
Defined.

(** ** Blocks and mining *)

Section BlockMore.

Variable digest : string -> string.

(** [Block(index, previous_hash, transactions, timestamp, nonce)] cannot be
    built with an empty transaction list.  With a non-empty one it returns a
    block holding the arguments, the Merkle root of the transactions and the
    digest of the header; a timestamp that is missing or 0 is replaced by the
    reading of the clock. *)
Theorem Block_init_outcome (limit : nat) (now i : Z) (p : string)
    (txs : list Transaction) (t : option Z) (n : Z) :
  (txs = [] -> Block_init digest limit now i p txs t n = Raise RecursionError)
  /\ (txs <> [] -> (length txs <= limit)%nat ->
      exists b : Block,
        Block_init digest limit now i p txs t n = Ret b
        /\ index b = i /\ previous_hash b = p /\ transactions b = txs
        /\ nonce b = n
        /\ (t = None \/ t = Some 0 -> timestamp b = now)
        /\ (forall v, t = Some v -> v <> 0 -> timestamp b = v)
        /\ merkle_root b
           = spec_merkle_root digest ((fun tx => digest (Transaction_repr tx)) <$> txs)
        /\ hash b = digest (block_string i p (merkle_root b) (timestamp b) n)).
Proof.
  split.
  - intros ->. apply Block_init_no_transactions.
  - intros Hne Hlen. unfold Block_init, MerkleTree_init.
    rewrite build_tree_spec; [| by destruct txs | by rewrite length_fmap].
    cbn [mbind outcome_bind mret outcome_ret root]. eexists. split; [reflexivity|].
    cbn [index previous_hash transactions nonce timestamp merkle_root hash set_hash].
    repeat split.
    + intros [-> | ->]; reflexivity.
    + intros v -> Hv. cbn [py_or]. by rewrite (proj2 (Z.eqb_neq v 0) Hv).
Qed.

(** Mining a mined block again, at the same difficulty, returns it as it is
    without running the loop body. *)
Theorem mine_block_idempotent (fuel fuel' : nat) (d : Z) (b b' : Block) :
  mine_block digest fuel d b = Ret b' ->
  mine_block digest fuel' d b' = Ret b'.
Proof.
  intros Hrun. destruct (mine_block_ret _ _ _ _ _ Hrun) as (k & _ & _ & Hm & _).
  unfold meets_target in Hm.
  destruct fuel'; cbn [mine_block]; rewrite decide_False; try reflexivity;
    intros Hne; by apply Hne.
Qed.


End BlockMore.

(** ** The width of a SHA-256 digest *)







Lemma mine_block_idempotent_witness :
  mine_block Scenario.sha256 0 1 Scenario.mined_block = Ret Scenario.mined_block.
Proof.
  apply (mine_block_idempotent Scenario.sha256 1000 0 1 Scenario.second_block).
  vm_compute. reflexivity.
Defined.


(** ** Validation *)

Section ChainMore.

Variable digest : string -> string.

(** The loop reads the predecessor of a visited index for its stored hash
    only. *)
Lemma validate_from_ext_hash (c c' : list Block) (idx : list nat) :
  Forall (fun i => c' !! i = c !! i
                   /\ hash <$> c' !! (i - 1)%nat = hash <$> c !! (i - 1)%nat) idx ->
  validate_from digest c' idx = validate_from digest c idx.
Proof.
  induction 1 as [|i idx [Hi Hp] _ IH]; [reflexivity|].
  cbn [validate_from]. unfold py_index. rewrite Hi.
  destruct (c !! i) as [cur|]; [|reflexivity]. cbn [mbind outcome_bind].
  destruct (c' !! (i - 1)%nat) as [prev'|], (c !! (i - 1)%nat) as [prev|];
    try discriminate; [|reflexivity].
  injection Hp as Hp. cbn [mbind outcome_bind]. by rewrite Hp, IH.
Qed.

(** A failed run stops at the first index, in the order visited, where a
    check fails, and prints one line naming that index and that check. *)
Lemma validate_from_false (c : list Block) (idx : list nat) (out : list string) :
  validate_from digest c idx = Ret (false, out) ->
  exists (pre : list nat) (i : nat) (post : list nat) (cur prev : Block)
         (reason : string),
    idx = pre ++ i :: post
    /\ Forall (linked_at digest c) pre
    /\ c !! i = Some cur /\ c !! (i - 1)%nat = Some prev
    /\ out = [invalid_block_message i reason]
    /\ (hash cur <> calculate_hash digest cur /\ reason = "hash mismatch"
        \/ hash cur = calculate_hash digest cur
           /\ previous_hash cur <> hash prev
           /\ reason = "previous hash mismatch").
Proof.
  induction idx as [|i idx IH]; [discriminate|].
  cbn [validate_from]. unfold py_index.
  destruct (c !! i) as [cur|] eqn:Hcur; [|discriminate].
  destruct (c !! (i - 1)%nat) as [prev|] eqn:Hprev; [|discriminate].
  cbn [mbind outcome_bind].
  destruct (decide (hash cur ≠ _)) as [Hh|Hh].
  { intros [= <-]. exists [], i, idx, cur, prev, "hash mismatch".
    repeat split; try done. by left. }
  apply dec_stable in Hh.
  destruct (decide (previous_hash cur ≠ _)) as [Hp|Hp].
  { intros [= <-]. exists [], i, idx, cur, prev, "previous hash mismatch".
    repeat split; try done. by right. }
  apply dec_stable in Hp. intros Hrun.
  destruct (IH Hrun) as (pre & j & post & cur' & prev' & reason & -> & Hpre & Hrest).
  exists (i :: pre), j, post, cur', prev', reason.
  split; [reflexivity|]. split; [|exact Hrest].
  constructor; [|exact Hpre]. by exists cur, prev.
Qed.

(** [is_chain_valid] returns true exactly when both checks pass at every
    index from 1 on; block 0 is a predecessor only. *)
Theorem is_chain_valid_true_iff (bc : Blockchain) :
  is_chain_valid digest bc = Ret (true, [])
  <-> forall i : nat,
        (1 <= i < length (chain bc))%nat ->
        exists cur prev : Block,
          chain bc !! i = Some cur
          /\ chain bc !! (i - 1)%nat = Some prev
          /\ hash cur = calculate_hash digest cur
          /\ previous_hash cur = hash prev.
Proof.
  unfold is_chain_valid. rewrite validate_from_true, Forall_forall.
  split; intros H i Hi; apply H.
  - apply elem_of_seq. lia.
  - apply elem_of_seq in Hi. lia.
Qed.

(** When [is_chain_valid] returns false it has printed exactly one line, for
    the smallest index at which a check fails; the line says "hash mismatch"
    when the stored hash differs from the recomputed one, and "previous hash
    mismatch" when only the link to the predecessor is broken. *)
Theorem is_chain_valid_reports_first_violation (bc : Blockchain)
    (out : list string) :
  is_chain_valid digest bc = Ret (false, out) ->
  exists (i : nat) (cur prev : Block) (reason : string),
    (1 <= i < length (chain bc))%nat
    /\ out = [invalid_block_message i reason]
    /\ chain bc !! i = Some cur /\ chain bc !! (i - 1)%nat = Some prev
    /\ (forall j : nat, (1 <= j < i)%nat -> linked_at digest (chain bc) j)
    /\ (hash cur <> calculate_hash digest cur /\ reason = "hash mismatch"
        \/ hash cur = calculate_hash digest cur
           /\ previous_hash cur <> hash prev
           /\ reason = "previous hash mismatch").
Proof.
  unfold is_chain_valid. intros Hrun.
  destruct (validate_from_false _ _ _ Hrun)
    as (pre & i & post & cur & prev & reason & Hidx & Hpre & Hcur & Hprev & Hout & Hwhy).
  assert (Hi : i ∈ seq 1 (length (chain bc) - 1)).
  { rewrite Hidx. apply elem_of_app. right. by left. }
  apply elem_of_seq in Hi.
  assert (Hpre_eq : pre = seq 1 (i - 1)).
  { assert (Hlen : (length pre + S (length post) = length (chain bc) - 1)%nat).
    { apply (f_equal length) in Hidx.
      rewrite length_seq, length_app in Hidx. simpl in Hidx. lia. }
    assert (Hi' : seq 1 (length (chain bc) - 1) !! length pre = Some i).
    { rewrite Hidx. by rewrite lookup_app_r, Nat.sub_diag by lia. }
    apply lookup_seq in Hi' as [Hi' _].
    apply (f_equal (take (length pre))) in Hidx.
    rewrite take_app_length in Hidx. rewrite <- Hidx, take_seq.
    f_equal. lia. }
  exists i, cur, prev, reason. repeat split; try done; try lia.
  intros j Hj. rewrite Forall_forall in Hpre. apply Hpre.
  rewrite Hpre_eq. apply elem_of_seq. lia.
Qed.

End ChainMore.

Section TamperingMore.

Variable digest : string -> string.


(** Validation never looks at the difficulty: in a chain that validates, the
    last block can be replaced by any block that points at its predecessor
    and stores its own recomputed hash, mined or not, and the chain still
    validates. *)
Theorem is_chain_valid_accepts_unmined_tip (bc : Blockchain) (i : nat)
    (prev b' : Block) :
  is_chain_valid digest bc = Ret (true, []) ->
  length (chain bc) = S (S i) ->
  chain bc !! i = Some prev ->
  previous_hash b' = hash prev ->
  hash b' = calculate_hash digest b' ->
  is_chain_valid digest (set_chain (<[S i := b']> (chain bc)) bc) = Ret (true, []).
Proof.
  unfold is_chain_valid. cbn [chain set_chain]. rewrite length_insert.
  intros Hvalid Hlen Hprev Hlink Hhash.
  rewrite validate_from_true, Forall_forall in *.
  intros j Hj. apply elem_of_seq in Hj as Hj'.
  destruct (decide (j = S i)) as [->|Hne].
  - exists b', prev. replace (S i - 1)%nat with i by lia.
    rewrite list_lookup_insert_eq by lia.
    rewrite list_lookup_insert_ne by lia. done.
  - destruct (Hvalid j Hj) as (cur & p & Hcur & Hp & Hh & Hl).
    exists cur, p. rewrite !list_lookup_insert_ne by lia. done.
Qed.

(** Every prefix of a chain that validates validates. *)
Theorem is_chain_valid_prefix (bc : Blockchain) (n : nat) :
  is_chain_valid digest bc = Ret (true, []) ->
  is_chain_valid digest (set_chain (take n (chain bc)) bc) = Ret (true, []).
Proof.
  unfold is_chain_valid. cbn [chain set_chain]. rewrite length_take.
  rewrite !validate_from_true, !Forall_forall.
  intros Hvalid j Hj. apply elem_of_seq in Hj.
  destruct (Hvalid j) as (cur & p & Hcur & Hp & Hh & Hl); [apply elem_of_seq; lia|].
  exists cur, p. rewrite !lookup_take_lt by lia. done.
Qed.

(** Overwriting the stored hash of block 0 in a chain of two or more blocks
    that validates is reported at index 1, as "previous hash mismatch". *)
Theorem genesis_hash_mutation_reported_at_1 (bc : Blockchain) (g : Block)
    (h : string) :
  is_chain_valid digest bc = Ret (true, []) ->
  (2 <= length (chain bc))%nat ->
  chain bc !! 0%nat = Some g ->
  h <> hash g ->
  is_chain_valid digest (set_chain (<[0%nat := set_hash h g]> (chain bc)) bc)
  = Ret (false, [invalid_block_message 1 "previous hash mismatch"]).
Proof.
  unfold is_chain_valid. cbn [chain set_chain]. rewrite length_insert.
  intros Hvalid Hlen Hg Hh.
  rewrite validate_from_true, Forall_forall in Hvalid.
  destruct (Hvalid 1%nat) as (cur & p & Hcur & Hp & Hc & Hl); [apply elem_of_seq; lia|].
  cbn in Hp. assert (p = g) as -> by congruence.
  replace (length (chain bc) - 1)%nat with (S (length (chain bc) - 2)) by lia.
  cbn [seq validate_from]. unfold py_index.
  change (1 - 1)%nat with 0%nat.
  rewrite (list_lookup_insert_ne _ 0 1) by lia. rewrite Hcur.
  rewrite list_lookup_insert_eq by lia.
  cbn [mbind outcome_bind hash set_hash].
  rewrite decide_False by (intros Hne; by apply Hne).
  rewrite decide_True by congruence. reflexivity.
Qed.

End TamperingMore.

Lemma is_chain_valid_reports_first_violation_witness :
  exists (i : nat) (cur prev : Block) (reason : string),
    (1 <= i < length (chain Scenario.ledger1_new_previous_hash))%nat
    /\ ["Invalid block at index 1: hash mismatch."] = [invalid_block_message i reason]
    /\ chain Scenario.ledger1_new_previous_hash !! i = Some cur
    /\ chain Scenario.ledger1_new_previous_hash !! (i - 1)%nat = Some prev.
Proof.
  destruct (is_chain_valid_reports_first_violation Scenario.sha256
              Scenario.ledger1_new_previous_hash
              ["Invalid block at index 1: hash mismatch."])
    as (i & cur & prev & reason & Hi & Hout & Hcur & Hprev & _);
    [vm_compute; reflexivity|].
  exists i, cur, prev, reason. repeat split; try assumption; lia.
Defined.


Lemma is_chain_valid_accepts_unmined_tip_witness :
  ~ meets_target (difficulty Scenario.ledger1) Scenario.second_block
  /\ is_chain_valid Scenario.sha256
       (set_chain (<[1%nat := Scenario.second_block]> (chain Scenario.ledger1))
          Scenario.ledger1)
     = Ret (true, []).
Proof.
  split; [vm_compute; discriminate|].
  apply (is_chain_valid_accepts_unmined_tip Scenario.sha256 Scenario.ledger1 0
           Scenario.first_block Scenario.second_block);
    try reflexivity; vm_compute; reflexivity.
Defined.

Lemma is_chain_valid_prefix_witness :
  is_chain_valid Scenario.sha256
    (set_chain (take 1 (chain Scenario.ledger1)) Scenario.ledger1)
  = Ret (true, []).
Proof.
  apply (is_chain_valid_prefix Scenario.sha256 Scenario.ledger1 1).
  vm_compute. reflexivity.
Defined.

Lemma genesis_hash_mutation_reported_at_1_witness :
  is_chain_valid Scenario.sha256
    (set_chain (<[0%nat := set_hash "00" Scenario.first_block]> (chain Scenario.ledger1))
       Scenario.ledger1)
  = Ret (false, [invalid_block_message 1 "previous hash mismatch"]).
Proof.
  apply (genesis_hash_mutation_reported_at_1 Scenario.sha256 Scenario.ledger1
           Scenario.first_block "00");
    [vm_compute; reflexivity | simpl; lia | reflexivity | discriminate].
Defined.

(** ** Admission *)

Section AdmissionMore.

Variable digest : string -> string.
Variable save_chain : Blockchain -> outcome unit.


(** The block [add_block] appends carries proof of work for the ledger's
    difficulty: its stored hash starts with [difficulty] zeros.  It is the
    object that was handed in; apart from [previous_hash], [nonce] and
    [hash] it reads as it did, and the ledger keeps its difficulty and file
    name. *)
Theorem add_block_tip_meets_target (fuel : nat) (h h' : Heap) (new_block : nat) :
  (new_block < length (objects h))%nat ->
  add_block digest save_chain fuel h new_block = Ret h' ->
  exists new_tip : Block,
    get_latest_block (snapshot h') = Ret new_tip
    /\ deref (objects h') new_block = new_tip
    /\ py_prefix (hash new_tip) (difficulty (snapshot h))
       = py_mul "0" (difficulty (snapshot h))
    /\ (forall i : nat, (i < Z.to_nat (difficulty (snapshot h)))%nat ->
          String.get i (hash new_tip) = Some "0"%char)
    /\ index new_tip = index (deref (objects h) new_block)
    /\ transactions new_tip = transactions (deref (objects h) new_block)
    /\ timestamp new_tip = timestamp (deref (objects h) new_block)
    /\ merkle_root new_tip = merkle_root (deref (objects h) new_block)
    /\ difficulty (snapshot h') = difficulty (snapshot h)
    /\ filename (snapshot h') = filename (snapshot h).
Proof.
  intros Hid Hadd.
  destruct (add_block_ret _ _ _ _ _ _ Hid Hadd) as (tip & mined & Htip & Hmine & ->).
  destruct (mine_block_ret _ _ _ _ _ Hmine) as (k & _ & Hk & Hmeets & _).
  destruct (mine_iter_fields digest k
              (set_previous_hash (hash tip) (deref (objects h) new_block)))
    as (Hi & _ & Htx & Ht & Hm & _). rewrite <- Hk in Hi, Htx, Ht, Hm.
  exists mined.
  split; [unfold get_latest_block, py_last;
          by rewrite snapshot_admitted, last_snoc|].
  split; [by apply deref_insert_eq|].
  split; [exact Hmeets|]. split; [by apply meets_target_zeros|]. done.
Qed.

(** The first position from 1 on at which a chain followed by [id] holds
    [id]. *)
Lemma first_position_from_1 (ids : list nat) (id : nat) :
  ids <> [] ->
  exists i : nat,
    (1 <= i <= length ids)%nat
    /\ (ids ++ [id]) !! i = Some id
    /\ forall j : nat, (1 <= j < i)%nat -> ids !! j <> Some id.
Proof.
  intros Hne.
  assert (Hpos : (0 < length ids)%nat) by (destruct ids; [done | simpl; lia]).
  destruct (list_find_elem_of (fun x => x = id) (drop 1 (ids ++ [id])) id)
    as [[k y] Hfind]; [|reflexivity|].
  { apply list_elem_of_lookup. exists (length ids - 1)%nat.
    rewrite lookup_drop. replace (1 + (length ids - 1))%nat with (length ids) by lia.
    rewrite lookup_app_r by lia. by rewrite Nat.sub_diag. }
  apply list_find_Some in Hfind as (Hk & -> & Hmin). rewrite lookup_drop in Hk.
  exists (S k). split.
  { apply lookup_lt_Some in Hk. rewrite length_app in Hk. simpl in Hk. lia. }
  split; [exact Hk|].
  intros j Hj Hlook. apply (Hmin (j - 1)%nat id); [|lia|reflexivity].
  rewrite lookup_drop. replace (1 + (j - 1))%nat with j by lia.
  apply lookup_app_l_Some. exact Hlook.
Qed.

(** [add_block] links the block before mining it but does not recompute its
    hash first.  When the stored hash already meets the target and no longer
    matches the linked header, the loop of [mine_block] does not run and the
    block keeps the stale hash.  The chain, valid before, then fails
    validation with "hash mismatch" at the first position from 1 on that
    holds the block: the new last position if the block was not in the
    chain, an earlier one if it was. *)
Theorem add_block_stale_hash (fuel : nat) (h h' : Heap) (new_block : nat)
    (tip : Block) :
  (new_block < length (objects h))%nat ->
  is_chain_valid digest (snapshot h) = Ret (true, []) ->
  get_latest_block (snapshot h) = Ret tip ->
  meets_target (heap_difficulty h) (deref (objects h) new_block) ->
  hash (deref (objects h) new_block)
  <> calculate_hash digest
       (set_previous_hash (hash tip) (deref (objects h) new_block)) ->
  add_block digest save_chain fuel h new_block = Ret h' ->
  h' = mkHeap (<[new_block := set_previous_hash (hash tip) (deref (objects h) new_block)]>
                 (objects h))
              (chain_ids h ++ [new_block]) (heap_difficulty h) (heap_filename h)
  /\ (new_block ∉ chain_ids h ->
      chain (snapshot h')
      = chain (snapshot h)
          ++ [set_previous_hash (hash tip) (deref (objects h) new_block)]
      /\ is_chain_valid digest (snapshot h')
         = Ret (false, [invalid_block_message (length (chain (snapshot h)))
                          "hash mismatch"]))
  /\ exists i : nat,
       (1 <= i <= length (chain_ids h))%nat
       /\ (chain_ids h ++ [new_block]) !! i = Some new_block
       /\ (forall j : nat, (1 <= j < i)%nat -> chain_ids h !! j <> Some new_block)
       /\ is_chain_valid digest (snapshot h')
          = Ret (false, [invalid_block_message i "hash mismatch"]).
Proof.
  intros Hid Hvalid Htip Hmeets Hstale Hadd.
  destruct (add_block_ret _ _ _ _ _ _ Hid Hadd) as (tip' & mined & Htip' & Hmine & ->).
  unfold get_latest_block, py_last in Htip. rewrite Htip' in Htip.
  injection Htip as ->.
  set (x := set_previous_hash (hash tip) (deref (objects h) new_block)) in *.
  assert (mined = x) as ->.
  { destruct fuel; cbn [mine_block] in Hmine;
      rewrite decide_False in Hmine by (intros Hne; by apply Hne);
      by injection Hmine. }
  split; [reflexivity|].
  assert (Hgeneral : exists i : nat,
            (1 <= i <= length (chain_ids h))%nat
            /\ (chain_ids h ++ [new_block]) !! i = Some new_block
            /\ (forall j : nat, (1 <= j < i)%nat -> chain_ids h !! j <> Some new_block)
            /\ is_chain_valid digest
                 (snapshot (mkHeap (<[new_block := x]> (objects h))
                                   (chain_ids h ++ [new_block])
                                   (heap_difficulty h) (heap_filename h)))
               = Ret (false, [invalid_block_message i "hash mismatch"])).
  { assert (Hne : chain_ids h <> []).
    { intros Hnil. cbn [snapshot chain] in Htip'. rewrite Hnil in Htip'. discriminate. }
    destruct (first_position_from_1 (chain_ids h) new_block Hne)
      as (i & Hi & Hlook & Hmin).
    exists i. split; [exact Hi|]. split; [exact Hlook|]. split; [exact Hmin|].
    unfold is_chain_valid in *. rewrite snapshot_admitted by exact Hid.
    cbn [snapshot chain] in Hvalid.
    set (ids := chain_ids h) in *. set (objs := objects h) in *.
    set (c := deref objs <$> ids) in *.
    set (c' := (deref (<[new_block := x]> objs) <$> ids) ++ [x]).
    assert (Hlen : length c = length ids) by apply length_fmap.
    assert (Hlen' : length c' = S (length ids)).
    { unfold c'. rewrite length_app, length_fmap. simpl. lia. }
    assert (Hc' : forall j : nat,
              c' !! j = deref (<[new_block := x]> objs) <$> (ids ++ [new_block]) !! j).
    { intros j. unfold c'.
      rewrite <- list_lookup_fmap, fmap_app, list_fmap_singleton.
      by rewrite deref_insert_eq by exact Hid. }
    assert (Hc : forall j : nat, c !! j = deref objs <$> ids !! j).
    { intros j. unfold c. by rewrite list_lookup_fmap. }
    rewrite Hlen'.
    replace (S (length ids) - 1)%nat with ((i - 1) + S (length ids - i))%nat by lia.
    rewrite seq_app. replace (1 + (i - 1))%nat with i by lia.
    rewrite validate_from_app.
    assert (Hbefore : validate_from digest c' (seq 1 (i - 1)) = Ret (true, [])).
    { rewrite (validate_from_ext_hash digest c).
      - rewrite Hlen in Hvalid.
        replace (length ids - 1)%nat with ((i - 1) + (length ids - i))%nat
          in Hvalid by lia.
        rewrite seq_app in Hvalid.
        apply validate_from_true, Forall_app in Hvalid as [Hb _].
        by apply validate_from_true.
      - apply Forall_forall. intros j Hj. apply elem_of_seq in Hj.
        destruct (lookup_lt_is_Some_2 ids j) as [o Ho]; [lia|].
        destruct (lookup_lt_is_Some_2 ids (j - 1)) as [o' Ho']; [lia|].
        assert (Ho1 : (ids ++ [new_block]) !! j = Some o)
          by (by apply lookup_app_l_Some).
        assert (Ho1' : (ids ++ [new_block]) !! (j - 1)%nat = Some o')
          by (by apply lookup_app_l_Some).
        assert (Hother : o <> new_block).
        { intros ->. apply (Hmin j); [lia | exact Ho]. }
        rewrite !Hc', !Hc, Ho, Ho', Ho1, Ho1'.
        cbn [fmap option_fmap option_map]. split.
        + f_equal. by apply deref_insert_ne.
        + f_equal. destruct (decide (o' = new_block)) as [->|Hne'].
          * by rewrite deref_insert_eq by exact Hid.
          * by rewrite deref_insert_ne by exact Hne'. }
    rewrite Hbefore. cbn [seq validate_from]. unfold py_index.
    assert (Hcur : c' !! i = Some x).
    { rewrite Hc', Hlook. cbn [fmap option_fmap option_map].
      f_equal. by apply deref_insert_eq. }
    destruct (lookup_lt_is_Some_2 c' (i - 1)) as [prev Hprev]; [lia|].
    rewrite Hcur. cbn [mbind outcome_bind]. rewrite Hprev. cbn [mbind outcome_bind].
    rewrite decide_True by exact Hstale. reflexivity. }
  split; [|exact Hgeneral].
  intros Hfresh. split; [by rewrite snapshot_admitted, deref_insert_fresh|].
  destruct Hgeneral as (i & Hi & Hlook & _ & Hres).
  assert (i = length (chain_ids h)) as ->.
  { destruct (decide (i = length (chain_ids h))) as [|Hlt]; [done|].
    exfalso. apply Hfresh. rewrite lookup_app_l in Hlook by lia.
    by eapply list_elem_of_lookup_2. }
  rewrite Hres. cbn [snapshot chain]. by rewrite length_fmap.
Qed.

End AdmissionMore.


Lemma add_block_tip_meets_target_witness :
  exists new_tip : Block,
    get_latest_block (snapshot Scenario.heap1) = Ret new_tip
    /\ py_prefix (hash new_tip) 1 = py_mul "0" 1.
Proof.
  destruct (add_block_tip_meets_target Scenario.sha256 Scenario.save_nothing 1000
              Scenario.heap0 Scenario.heap1 1)
    as (new_tip & Htip & _ & Hmeets & _); [simpl; lia | vm_compute; reflexivity|].
  exists new_tip. split; assumption.
Defined.

(** At difficulty 0 the stray block, which the chain does not hold, is
    appended with its stale hash.  At difficulty 1 the mined block, handed in
    a second time, is linked to itself and keeps its hash. *)
Lemma add_block_stale_hash_witness :
  (chain (snapshot Scenario.heap_easy_stray)
   = chain (snapshot Scenario.heap_easy)
       ++ [set_previous_hash (hash Scenario.first_block) Scenario.stray_block]
   /\ is_chain_valid Scenario.sha256 (snapshot Scenario.heap_easy_stray)
      = Ret (false, [invalid_block_message 1 "hash mismatch"]))
  /\ exists i : nat,
       (1 <= i <= 2)%nat
       /\ is_chain_valid Scenario.sha256 (snapshot Scenario.heap_again)
          = Ret (false, [invalid_block_message i "hash mismatch"]).
Proof.
  split.
  - apply (add_block_stale_hash Scenario.sha256 Scenario.save_nothing 1000
             Scenario.heap_easy Scenario.heap_easy_stray 1 Scenario.first_block).
    + simpl. lia.
    + vm_compute. reflexivity.
    + reflexivity.
    + reflexivity.
    + vm_compute. discriminate.
    + vm_compute. reflexivity.
    + intros Hin. apply list_elem_of_singleton in Hin. discriminate Hin.
  - destruct (add_block_stale_hash Scenario.sha256 Scenario.save_nothing 1000
                Scenario.heap1 Scenario.heap_again 1 Scenario.mined_block)
      as (_ & _ & i & Hi & _ & _ & Hres).
    + simpl. lia.
    + vm_compute. reflexivity.
    + reflexivity.
    + reflexivity.
    + vm_compute. discriminate.
    + vm_compute. reflexivity.
    + exists i. split; [exact Hi | exact Hres].
Defined.

(** ** The second definition of [Block] *)

(** In the second definition of [Block] the hashed string covers the
    transactions: with the other header fields fixed, two blocks hash the
    same string exactly when the joined [str] of their transactions is the
    same.  Construction works for any transaction list, the empty one
    included, and stores the recomputed hash. *)
Theorem Transactional_hash_covers_transactions (digest : string -> string)
    (now i : Z) (p : string) (txs txs' : list Transaction) (t : option Z) (n : Z) :
  (Transactional.block_string i p txs (py_or t now) n
   = Transactional.block_string i p txs' (py_or t now) n
   <-> Transactional.transactions_str txs = Transactional.transactions_str txs')
  /\ Transactional.hash (Transactional.Block_init digest now i p txs t n)
     = Transactional.calculate_hash digest
         (Transactional.Block_init digest now i p txs t n)
  /\ Transactional.hash (Transactional.Block_init digest now i p [] t n)
     = digest (str_int i +:+ p +:+ str_int (py_or t now) +:+ str_int n).
Proof.
  split; [|split; reflexivity].
  unfold Transactional.block_string. split.
  - intros Heq.
    apply (inj (String.app (str_int i))) in Heq.
    apply (inj (String.app p)) in Heq.
    exact (string_app_inv_tail _ _ _ Heq).
  - by intros ->.
Qed.

(** Replacing Alice -> Bob by Alice -> Mallory changes the string the second
    [Block] hashes. *)
Example Transactional_replacement_changes_hashed_string :
  Transactional.block_string 1 "0" [Scenario.alice_bob] 1700000060 0
  <> Transactional.block_string 1 "0" [Scenario.alice_mallory] 1700000060 0.
Proof. vm_compute. discriminate. Qed.
